(** * The e-mail grouping notebook (scripts/tools/emailanalysis/emailgrouping.ipynb)

    A shallow embedding of the notebook's cells, in their order: reading the
    inbox, cleaning the bodies with regular expressions, TF-IDF weighting,
    k-means clustering, top-term ranking, the keyword query and the tagging
    loop.

    Numbers.  The notebook computes with float64.  Values that are only
    compared, added, multiplied and divided are exact rationals ([Q]) here, so
    that the definitions run; the TF-IDF weights, which need a logarithm and a
    square root, are real numbers ([R]): the formulas, without rounding.  What
    rounding does to the normalised vectors and to the scores is in module
    [Float64], on binary64 numbers.

    Library calls.  The notebook is a sequence of calls into [re], [pandas],
    [numpy] and [scikit-learn].  Each call is modelled by a definition named
    after it that follows the library's documented behaviour for the arguments
    the notebook passes; what a library computes internally and the notebook
    never looks at (the tokenizer's Unicode rules, the k-means optimisation)
    is a [Variable] of the section that uses it. *)

From Stdlib Require Import List String Ascii Bool Arith NArith ZArith Lia.
From Stdlib Require Import QArith Qminmax.
From Stdlib Require Import Permutation Sorted.
From Stdlib Require Import Reals Lra.
From Stdlib Require Floats Uint63.
Import ListNotations.

Set Implicit Arguments.
Close Scope R_scope.
Close Scope Q_scope.
Close Scope Z_scope.
Open Scope nat_scope.

(** ** Python exceptions and fallible steps *)

Inductive exn : Type :=
  | TypeError
  | IndexError
  | ValueError
  | com_error.

Inductive result (A : Type) : Type :=
  | Ok (a : A)
  | Raise (e : exn).

Arguments Ok {A} a.
Arguments Raise {A} e.

Definition bind {A B : Type} (r : result A) (f : A -> result B) : result B :=
  match r with
  | Ok a => f a
  | Raise e => Raise e
  end.

Notation "x <- r ;; k" := (bind r (fun x => k))
  (at level 61, r at next level, right associativity).

(** [[f(x) for x in xs]] where [f] may raise: the first exception ends the
    comprehension. *)
Fixpoint mapM {A B : Type} (f : A -> result B) (xs : list A) : result (list B) :=
  match xs with
  | [] => Ok []
  | x :: xs' => y <- f x ;; ys <- mapM f xs' ;; Ok (y :: ys)
  end.

(** ** Python's [re], for the patterns of the body-cleaning cell

    Every pattern of the notebook is an alternation of sequences whose items
    are a character class with a quantifier (none, [?], [*], [+], all greedy)
    or an anchor.  Matching is the backtracking search of [re]: at a position
    the alternatives are tried in order, a greedy item takes as much as it can
    and gives back one character at a time.

    Characters are code points below 256 ([ascii]); the classes [\s], [\d] and
    [.] are the ones [re] uses for [str] patterns on that range. *)

Module PyRe.

Local Open Scope N_scope.
Local Open Scope bool_scope.

Definition code (c : ascii) : N := N_of_ascii c.

Definition in_range (lo hi : N) (c : ascii) : bool :=
  (lo <=? code c) && (code c <=? hi).

Definition lit (a : ascii) (c : ascii) : bool := Ascii.eqb a c.

(** [\s]: tab to carriage return, the four separators 28-31, space,
    NEL (133) and the no-break space (160). *)
Definition space (c : ascii) : bool :=
  in_range 9 13 c || in_range 28 32 c || (code c =? 133) || (code c =? 160).

(** [\S] *)
Definition nonspace (c : ascii) : bool := negb (space c).

(** [\d] *)
Definition digit (c : ascii) : bool := in_range 48 57 c.

(** [[a-zA-Z0-9]] and its complement [[^a-zA-Z0-9]] *)
Definition alnum (c : ascii) : bool :=
  in_range 97 122 c || in_range 65 90 c || in_range 48 57 c.
Definition nonalnum (c : ascii) : bool := negb (alnum c).

(** [.] without DOTALL: anything but a line feed. *)
Definition dot (c : ascii) : bool := negb (code c =? 10).

(** [[\r\n]] *)
Definition crlf (c : ascii) : bool := (code c =? 13) || (code c =? 10).

Inductive item : Type :=
  | One (c : ascii -> bool)
  | Opt (c : ascii -> bool)
  | Star (c : ascii -> bool)
  | Plus (c : ascii -> bool)
  | Bol
  | Eol.

Definition pattern : Type := list (list item).

Local Close Scope N_scope.

(** [c*] followed by the rest of the sequence [k]: the longest run first. *)
Fixpoint star_k (c : ascii -> bool) (k : bool -> string -> option nat)
    (bol : bool) (s : string) : option nat :=
  match s with
  | String x s' =>
      if c x then
        match star_k c k false s' with
        | Some n => Some (S n)
        | None => k bol s
        end
      else k bol s
  | EmptyString => k bol s
  end.

(** [$] without MULTILINE: the end of the string, or just before a line feed
    that ends it. *)
Definition at_end (s : string) : bool :=
  match s with
  | EmptyString => true
  | String x EmptyString => (code x =? 10)%N
  | _ => false
  end.

(** [match_seq p bol s]: the number of characters the sequence [p] takes at
    the front of [s]; [bol] says that [s] is the whole subject. *)
Fixpoint match_seq (p : list item) (bol : bool) (s : string) {struct p}
    : option nat :=
  match p with
  | [] => Some 0
  | i :: p' =>
      match i with
      | One c =>
          match s with
          | String x s' =>
              if c x then option_map S (match_seq p' false s') else None
          | EmptyString => None
          end
      | Opt c =>
          match s with
          | String x s' =>
              if c x then
                match match_seq p' false s' with
                | Some n => Some (S n)
                | None => match_seq p' bol s
                end
              else match_seq p' bol s
          | EmptyString => match_seq p' bol s
          end
      | Star c => star_k c (match_seq p') bol s
      | Plus c =>
          match s with
          | String x s' =>
              if c x then option_map S (star_k c (match_seq p') false s')
              else None
          | EmptyString => None
          end
      | Bol => if bol then match_seq p' bol s else None
      | Eol => if at_end s then match_seq p' bol s else None
      end
  end.

Fixpoint match_at (r : pattern) (bol : bool) (s : string) : option nat :=
  match r with
  | [] => None
  | p :: r' =>
      match match_seq p bol s with
      | Some n => Some n
      | None => match_at r' bol s
      end
  end.

(** [re.sub(r, repl, s)]: the matches are found from left to right and do not
    overlap; [skip] counts the characters of the current match still to be
    dropped.  (None of the notebook's patterns matches the empty string; an
    empty match is replaced and the scan moves on by one character.) *)
Fixpoint sub_scan (r : pattern) (repl : string) (bol : bool) (skip : nat)
    (s : string) : string :=
  match skip with
  | S k =>
      match s with
      | String _ s' => sub_scan r repl false k s'
      | EmptyString => EmptyString
      end
  | O =>
      match match_at r bol s with
      | Some (S k) =>
          (repl ++
           match s with
           | String _ s' => sub_scan r repl false k s'
           | EmptyString => EmptyString
           end)%string
      | Some O =>
          (repl ++
           match s with
           | String x s' => String x (sub_scan r repl false 0 s')
           | EmptyString => EmptyString
           end)%string
      | None =>
          match s with
          | String x s' => String x (sub_scan r repl false 0 s')
          | EmptyString => EmptyString
          end
      end
  end.

Definition sub (r : pattern) (repl : string) (s : string) : string :=
  sub_scan r repl true 0 s.

End PyRe.

(** ** Reading the inbox

    [for message in messages: try: email = (message.EntryID, ...) ;
    emaillist.append(email) except: pass].  Reading a property of an Outlook
    item is a COM call: it returns a value or raises.  A body that Outlook
    hands over is a [str]; [None] stands for a null value. *)

Inductive com_read (A : Type) : Type :=
  | Returned (a : A)
  | ComFails.

Arguments Returned {A} a.
Arguments ComFails {A}.

Record MailItem : Type := {
  EntryID : com_read string;
  SenderEmailAddress : com_read string;
  ReceivedTime : com_read string;
  subject : com_read string;
  body : com_read (option string);
  Parent : com_read string;
  (** the category string the store holds for the item *)
  Categories : string;
  (** whether [Save()] on the item raises *)
  Save_raises : bool
}.

(** An item all of whose properties can be read, with an empty category. *)
Definition mail_item (id text : string) (save_raises : bool) : MailItem :=
  {| EntryID := Returned id;
     SenderEmailAddress := Returned "sender@example.org"%string;
     ReceivedTime := Returned "2021-01-01"%string;
     subject := Returned "subject"%string;
     body := Returned (Some text);
     Parent := Returned "Inbox"%string;
     Categories := ""%string;
     Save_raises := save_raises |}.

(** One row of [emaillist], later of the data frame [pdraw]. *)
Record Row : Type := {
  EmailID : string;
  From_ : string;
  Date : string;
  Subject : string;
  Body : option string;
  Parent_ : string;
  Class : string
}.

Definition get {A : Type} (r : com_read A) : result A :=
  match r with
  | Returned a => Ok a
  | ComFails => Raise com_error
  end.

(** The tuple built inside [try]. *)
Definition read_email (message : MailItem) : result Row :=
  i <- get (EntryID message) ;;
  f <- get (SenderEmailAddress message) ;;
  d <- get (ReceivedTime message) ;;
  s <- get (subject message) ;;
  b <- get (body message) ;;
  p <- get (Parent message) ;;
  Ok {| EmailID := i; From_ := f; Date := d; Subject := s; Body := b;
        Parent_ := p; Class := "unknown" |}.

(** The loop: [except: pass] drops the message. *)
Fixpoint emaillist (messages : list MailItem) : list Row :=
  match messages with
  | [] => []
  | message :: rest =>
      match read_email message with
      | Ok email => email :: emaillist rest
      | Raise _ => emaillist rest
      end
  end.

(** [pdraw = pd.DataFrame(emaillist, ...)].  The last statement of the cell,
    [pdraw.dropna(how='all', axis=1)], returns a new frame that the notebook
    does not keep: [pdraw] is unchanged.  (The conversion of the [Date] column
    in between plays no part in what follows and is left out.) *)
Definition pdraw (messages : list MailItem) : list Row := emaillist messages.

(** ** Cleaning the bodies *)

Module Cleaning.

Import PyRe.
Local Open Scope string_scope.

Definition CR : ascii := ascii_of_nat 13.
Definition LF : ascii := ascii_of_nat 10.

(** ['\r\n\r\n \r\n\r\nFrom'] *)
Definition reply_delimiter : string :=
  String CR (String LF (String CR (String LF (String " "
  (String CR (String LF (String CR (String LF "From")))))))).

(** The characters that are not read as themselves in a regular
    expression. *)
Definition metachar (c : ascii) : bool :=
  existsb (Ascii.eqb c) (list_ascii_of_string ".^$*+?{}[]\|()").

(** [Series.str.split(pat)] splits at the text [pat] when [pat] has one
    character and compiles a longer [pat] as a regular expression, which
    matches the text [pat] when none of its characters is a metacharacter.
    The notebook's delimiter is of this kind. *)
Definition literal (pat : string) : bool :=
  match pat with
  | EmptyString => false
  | String _ EmptyString => true
  | _ => negb (existsb metachar (list_ascii_of_string pat))
  end.

(** [s.split(sep)[0]] for a [sep] that is read literally: what stands before
    the first [sep]. *)
Fixpoint split_head (sep s : string) : string :=
  if String.prefix sep s then ""
  else match s with
       | EmptyString => ""
       | String c s' => String c (split_head sep s')
       end.

(** [r'\S*:\S*\s?'] *)
Definition re_label : pattern :=
  [[Star nonspace; One (lit ":"); Star nonspace; Opt space]].

(** [r'\S*-\S-\S*\s?'] *)
Definition re_hyphen : pattern :=
  [[Star nonspace; One (lit "-"); One nonspace; One (lit "-"); Star nonspace;
    Opt space]].

(** [r'^https?:\/\/.*[\r\n]*'] *)
Definition re_url : pattern :=
  [[Bol; One (lit "h"); One (lit "t"); One (lit "t"); One (lit "p");
    Opt (lit "s"); One (lit ":"); One (lit "/"); One (lit "/"); Star dot;
    Star crlf]].

(** [r'\S*@\S*\s?'] *)
Definition re_address : pattern :=
  [[Star nonspace; One (lit "@"); Star nonspace; Opt space]].

(** [r'[^a-zA-Z0-9]+'] *)
Definition re_special : pattern := [[Plus nonalnum]].

(** ["^\d+\s|\s\d+\s|\s\d+$"] *)
Definition re_number : pattern :=
  [[Bol; Plus digit; One space];
   [One space; Plus digit; One space];
   [One space; Plus digit; Eol]].

(** [r' +'] *)
Definition re_spaces : pattern := [[Plus (lit " ")]].

(** The eight assignments to [pdraw['Body']] on one body that is a [str]. *)
Definition clean_body (x : string) : string :=
  let x := split_head reply_delimiter x in
  let x := sub re_label " " x in
  let x := sub re_hyphen " " x in
  let x := sub re_url " " x in
  let x := sub re_address " " x in
  let x := sub re_special " " x in
  let x := sub re_number " " x in
  sub re_spaces " " x.

(** The same on the column.  [.str.split(...).str[0]] leaves a missing value
    missing; [.apply(lambda x: re.sub(..., x))] calls [re.sub] on every
    element, and [re.sub] raises [TypeError] when it is given something that
    is not a string. *)
Definition str_split_0 (sep : string) (col : list (option string))
    : list (option string) :=
  map (option_map (split_head sep)) col.

Definition re_sub (r : pattern) (repl : string) (x : option string)
    : result (option string) :=
  match x with
  | Some s => Ok (Some (sub r repl s))
  | None => Raise TypeError
  end.

Definition apply_sub (r : pattern) (repl : string) (col : list (option string))
    : result (list (option string)) :=
  mapM (re_sub r repl) col.

Definition clean_column (col : list (option string))
    : result (list (option string)) :=
  let col := str_split_0 reply_delimiter col in
  col <- apply_sub re_label " " col ;;
  col <- apply_sub re_hyphen " " col ;;
  col <- apply_sub re_url " " col ;;
  col <- apply_sub re_address " " col ;;
  col <- apply_sub re_special " " col ;;
  col <- apply_sub re_number " " col ;;
  apply_sub re_spaces " " col.

(** The cell, from the messages of the inbox to the cleaned column. *)
Definition cleaned_bodies (messages : list MailItem)
    : result (list (option string)) :=
  clean_column (map Body (pdraw messages)).

End Cleaning.

(** ** Numbers

    What the array code needs of its element type.  [Q] is the instance the
    definitions run on; [R] is the instance of the TF-IDF weights. *)

Class Number (A : Type) : Type := {
  num_zero : A;
  num_of_nat : nat -> A;
  num_add : A -> A -> A;
  num_sub : A -> A -> A;
  num_mul : A -> A -> A;
  num_div : A -> A -> A;
  num_leb : A -> A -> bool
}.

(** [<=] is a total preorder. *)
Class NumberOrder (A : Type) {N : Number A} : Prop := {
  num_leb_total : forall a b : A, num_leb a b = true \/ num_leb b a = true;
  num_leb_trans : forall a b c : A,
    num_leb a b = true -> num_leb b c = true -> num_leb a c = true
}.

Arguments NumberOrder A {N}.

#[export] Instance Number_Q : Number Q := {
  num_zero := 0%Q;
  num_of_nat := fun n => inject_Z (Z.of_nat n);
  num_add := Qplus;
  num_sub := Qminus;
  num_mul := Qmult;
  num_div := Qdiv;
  num_leb := Qle_bool
}.

Definition Rleb (x y : R) : bool := if Rle_dec x y then true else false.

#[export] Instance Number_R : Number R := {
  num_zero := 0%R;
  num_of_nat := INR;
  num_add := Rplus;
  num_sub := Rminus;
  num_mul := Rmult;
  num_div := Rdiv;
  num_leb := Rleb
}.

Section Numbers.

Context {A : Type} {N : Number A}.

(** [a < b] *)
Definition num_ltb (a b : A) : bool := negb (num_leb b a).

(** [a == b] *)
Definition num_eqb (a b : A) : bool := num_leb a b && num_leb b a.

(** [a != 0] *)
Definition nonzero (a : A) : bool := negb (num_eqb a num_zero).

Definition num_sum (l : list A) : A := fold_right num_add num_zero l.

End Numbers.

(** ** numpy, on one-dimensional arrays as lists *)

Module np.

Section Arrays.

Context {A : Type} {N : Number A}.

(** [a[i]] for [0 <= i < len(a)] *)
Definition item (a : list A) (i : nat) : A := nth i a num_zero.

(** One step of a stable insertion sort of indices by their values. *)
Fixpoint insert (a : list A) (i : nat) (l : list nat) : list nat :=
  match l with
  | [] => [i]
  | j :: l' =>
      if num_leb (item a i) (item a j) then i :: j :: l'
      else j :: insert a i l'
  end.

(** [np.argsort(a)]: the indices that sort [a] in ascending order, indices
    of equal values in ascending order.  This is what numpy's default kind,
    an introsort, returns on an array of at most 17 entries, which it sorts
    by insertion; a longer array is partitioned first, and indices of equal
    values can then come in another order.  The statements about the order
    of a ranking are therefore about every function that [sorts], below, and
    say nothing of equal values. *)
Definition argsort (a : list A) : list nat :=
  fold_right (insert a) [] (seq 0 (List.length a)).

(** The value at [i] is at most the value at [j]. *)
Definition ascends (a : list A) (i j : nat) : Prop :=
  num_leb (item a i) (item a j) = true.

(** What numpy documents of [argsort] for every kind of sort: the result is
    the indices of the array, each once, and the values taken in that order
    ascend.  Nothing is said of indices of equal values. *)
Definition sorts (argsort : list A -> list nat) : Prop :=
  forall a : list A,
    Permutation (argsort a) (seq 0 (List.length a))
    /\ StronglySorted (ascends a) (argsort a).

(** [np.count_nonzero(a)] *)
Definition count_nonzero (a : list A) : nat := List.length (filter nonzero a).

(** [D[:, j]] *)
Definition column (D : list (list A)) (j : nat) : list A :=
  map (fun row => item row j) D.

(** [np.mean(D, axis=0)] of a two-dimensional array with [ncols] columns:
    the mean of each column.  (Of an array with no rows numpy returns NaN,
    which the numbers here do not have; the division by the zero count is left
    to the number type.) *)
Definition mean_axis0 (ncols : nat) (D : list (list A)) : list A :=
  map (fun j => num_div (num_sum (column D j)) (num_of_nat (List.length D)))
      (seq 0 ncols).

End Arrays.

(** [a[:stop:-1]]: Python's rule for a slice with step [-1] and no start.  A
    negative [stop] counts from the end and is clipped at [-1]; a [stop] that
    is not negative is clipped at [len(a) - 1]; the slice runs from the last
    element down to the one after [stop]. *)
Definition slice_stop_rev {B : Type} (a : list B) (stop : Z) : list B :=
  let n := Z.of_nat (List.length a) in
  let stop' :=
    if (stop <? 0)%Z
    then (if (stop + n <? 0)%Z then (-1)%Z else (stop + n)%Z)
    else (if (n <=? stop)%Z then (n - 1)%Z else stop) in
  firstn (Z.to_nat (n - 1 - stop')) (rev a).

End np.

(** ** The order of a ranking

    [asc a i j]: in the array [a], index [i] stands before index [j] in the
    ascending stable order: its value is smaller, or equal with [i < j].
    [desc a i j]: [i] stands before [j] when that order is read backwards: its
    value is larger, or equal with [j < i]. *)

Section Orders.

Context {A : Type} {N : Number A}.

Variable a : list A.

Definition asc (i j : nat) : Prop :=
  num_leb (np.item a i) (np.item a j) = true /\
  (num_leb (np.item a j) (np.item a i) = true -> i < j).

Definition desc (i j : nat) : Prop := asc j i.

End Orders.

(** ** TF-IDF weighting

    [stopwords = text.ENGLISH_STOP_WORDS.union([...])],
    [vectorizer = TfidfVectorizer(stop_words=stopwords, analyzer='word',
    strip_accents='unicode')], [x = vectorizer.fit_transform(pdraw['Body'])].
    The other parameters keep their defaults: [use_idf=True],
    [smooth_idf=True], [sublinear_tf=False], [norm='l2'].

    scikit-learn's stop-word list and its tokenizer (accent stripping, lower
    case, the token pattern) are parameters.  The weights of this module are
    real numbers: the formulas, without rounding.  The float64 computation of
    the vectors and the scores is in [Float64]. *)

Module Tfidf.

Local Open Scope string_scope.
Local Open Scope list_scope.
Local Open Scope R_scope.

Definition dot (u v : list R) : R :=
  fold_right Rplus 0 (map (fun p => fst p * snd p) (combine u v)).

Definition norm (u : list R) : R := sqrt (dot u u).

(** [sklearn.preprocessing.normalize(row, norm='l2')]: the row divided by its
    Euclidean norm; a norm of zero is replaced by one, so a zero row stays. *)
Definition normalize (u : list R) : list R :=
  let n := if Req_dec_T (norm u) 0 then 1 else norm u in
  map (fun w => w / n) u.

(** The smoothed inverse document frequency:
    [idf = log((1 + n_samples) / (1 + df)) + 1]. *)
Definition idf (n_samples df : nat) : R :=
  ln ((1 + INR n_samples) / (1 + INR df)) + 1.

Definition mem (t : string) (l : list string) : bool :=
  existsb (String.eqb t) l.

(** The term frequency: how often [t] occurs in the analysed document. *)
Definition tf (t : string) (d : list string) : nat := count_occ string_dec d t.

(** The document frequency: how many documents contain [t]. *)
Definition df (t : string) (docs : list (list string)) : nat :=
  List.length (filter (mem t) docs).

(** The features are the distinct terms in sorted order. *)
Fixpoint insert_term (t : string) (l : list string) : list string :=
  match l with
  | [] => [t]
  | u :: l' => if String.leb t u then t :: l else u :: insert_term t l'
  end.

Definition vocabulary (docs : list (list string)) : list string :=
  fold_right insert_term [] (nodup string_dec (List.concat docs)).

Record TfidfVectorizer : Type := {
  vocabulary_ : list string;
  idf_ : list R
}.

(** The weights of one analysed document before normalisation. *)
Definition tfidf_row (v : TfidfVectorizer) (d : list string) : list R :=
  map (fun ti => INR (tf (fst ti) d) * snd ti)
      (combine (vocabulary_ v) (idf_ v)).

(** A row is L2-normalised when its norm is 1, or when it is the zero row. *)
Definition all_zero (u : list R) : Prop := Forall (fun w => w = 0) u.
Definition nonneg (u : list R) : Prop := Forall (fun w => 0 <= w) u.
Definition unit_or_zero (u : list R) : Prop := norm u = 1 \/ all_zero u.

(** [linear_kernel(X, Y)] is the matrix of dot products of the rows. *)
Definition linear_kernel (X Y : list (list R)) : list (list R) :=
  map (fun x => map (dot x) Y) X.

Definition flatten (M : list (list R)) : list R := List.concat M.

Section Vectorizer.

Variable ENGLISH_STOP_WORDS : list string.
Variable tokenize : string -> list string.

Definition stopwords : list string :=
  ENGLISH_STOP_WORDS ++
  ["deepa"; "brett"; "corey"; "jackie"; "gillian"; "auger"; "external";
   "filatow"; "erwin"].

Definition analyze (doc : string) : list string :=
  filter (fun t => negb (mem t stopwords)) (tokenize doc).

(** The products term frequency times idf of an analysed document [d], for
    the idf of the corpus [raw_documents]. *)
Definition raw_weights (raw_documents : list string) (vocab : list string)
    (d : list string) : list R :=
  let docs := map analyze raw_documents in
  map (fun t => INR (tf t d) * idf (List.length docs) (df t docs)) vocab.

(** [fit]: the vocabulary and the idf vector.  An empty vocabulary (no
    document, or only stop words) is a [ValueError]. *)
Definition fit (raw_documents : list string) : result TfidfVectorizer :=
  let docs := map analyze raw_documents in
  match vocabulary docs with
  | [] => Raise ValueError
  | vocab =>
      Ok {| vocabulary_ := vocab;
            idf_ := map (fun t => idf (List.length docs) (df t docs)) vocab |}
  end.

(** [transform]: term frequency times idf, each row L2-normalised. *)
Definition transform (v : TfidfVectorizer) (raw_documents : list string)
    : list (list R) :=
  map (fun doc => normalize (tfidf_row v (analyze doc))) raw_documents.

Definition fit_transform (raw_documents : list string)
    : result (TfidfVectorizer * list (list R)) :=
  v <- fit raw_documents ;; Ok (v, transform v raw_documents).

(** [vec_query = vectorizer.transform([query])],
    [cosine_sim = linear_kernel(vec_query, x_dense).flatten()] *)
Definition cosine_sim (v : TfidfVectorizer) (x_dense : list (list R))
    (query : string) : list R :=
  flatten (linear_kernel (transform v [query]) x_dense).

End Vectorizer.

(** A tokenizer for the examples: the words of two or more characters of a
    string, separated by spaces.  On lower-case text of letters, digits and
    single spaces this is what the vectorizer's default token pattern
    yields. *)
Fixpoint tokens (cur : string) (s : string) : list string :=
  match s with
  | EmptyString => [cur]
  | String c s' =>
      if Ascii.eqb c " " then cur :: tokens "" s'
      else tokens (cur ++ String c "")%string s'
  end.

Definition words (s : string) : list string :=
  filter (fun t => 2 <=? String.length t)%nat (tokens "" s).

(** Modelled from the spec: the glossary's cosine similarity, "the normalized
    dot-product measure of vector directional similarity"; the notebook never
    computes it, it calls [linear_kernel]. *)
Definition cosine_similarity_spec (u v : list R) : R :=
  dot u v / (norm u * norm v).

End Tfidf.

(** ** The vectors and the scores in float64

    The weights are float64 numbers in the notebook: the counts are converted,
    multiplied by the idf and each row divided by its norm in binary64
    arithmetic, rounding at every step.  [float] is Rocq's binary64 type; its
    operations are the IEEE 754 operations of the processor.  A fitted
    vectorizer is its vocabulary and its idf vector, here as floats (the
    logarithm that produced them is not an IEEE operation and is not
    modelled). *)

Module Float64.

Import Floats.
Local Open Scope float_scope.

Record TfidfVectorizer : Type := {
  vocabulary_ : list string;
  idf_ : list float
}.

(** A count as a float64 ([X.astype(np.float64)]). *)
Definition of_count (n : nat) : float := of_uint63 (Uint63.of_Z (Z.of_nat n)).

(** The matrix is sparse: a term that does not occur has the entry 0,
    whatever its idf. *)
Definition weight (count : nat) (idf : float) : float :=
  if Nat.eqb count 0 then 0 else of_count count * idf.

(** The weights of one analysed document before normalisation. *)
Definition tfidf_row (v : TfidfVectorizer) (d : list string) : list float :=
  map (fun ti => weight (Tfidf.tf (fst ti) d) (snd ti))
      (combine (vocabulary_ v) (idf_ v)).

(** [sklearn.preprocessing.normalize(X, norm='l2')] on one row
    ([inplace_csr_row_normalize_l2]): [sum += x * x] over the entries in
    order, nothing more when the sum is 0, otherwise [x /= sqrt(sum)]. *)
Definition sum_squares (row : list float) : float :=
  fold_left (fun sum x => sum + x * x) row 0.

Definition normalize (row : list float) : list float :=
  let sum := sum_squares row in
  if sum =? 0 then row
  else let norm := sqrt sum in map (fun x => x / norm) row.

(** One entry of [linear_kernel(vec_query, x_dense)]: the products are added
    in the order of the vocabulary, starting from 0.  (Entries of the sparse
    query vector that are 0 are skipped by the code; adding their product
    changes nothing while the row is finite.) *)
Definition dot (u v : list float) : float :=
  fold_left (fun sum p => sum + fst p * snd p) (combine u v) 0.

Section Vectorizer.

Variable ENGLISH_STOP_WORDS : list string.
Variable tokenize : string -> list string.

(** [vectorizer.transform(raw_documents)] as a dense matrix *)
Definition transform (v : TfidfVectorizer) (raw_documents : list string)
    : list (list float) :=
  map (fun doc =>
         normalize
           (tfidf_row v (Tfidf.analyze ENGLISH_STOP_WORDS tokenize doc)))
      raw_documents.

(** [cosine_sim = linear_kernel(vec_query, x_dense).flatten()] *)
Definition cosine_sim (v : TfidfVectorizer) (x_dense : list (list float))
    (query : string) : list float :=
  let vec_query :=
    normalize (tfidf_row v (Tfidf.analyze ENGLISH_STOP_WORDS tokenize query)) in
  map (dot vec_query) x_dense.

End Vectorizer.

(** [+0], a positive subnormal or a positive normal number: finite and not
    negative, as every idf is ([log((1 + n) / (1 + df)) + 1 >= 1]). *)
Definition finite_nonneg (w : float) : bool :=
  match classify w with
  | PZero | PSubn | PNormal => true
  | _ => false
  end.

(** On the specification side of a float: the sign bit is clear, or the
    value is NaN. *)
Definition sign_clear (x : spec_float) : Prop :=
  match x with
  | S754_zero s | S754_infinity s | S754_finite s _ _ => s = false
  | S754_nan => True
  end.

End Float64.

(** ** k-means

    [kmeans = KMeans(n_clusters=k, random_state=0).fit(x_dense)],
    [y_means = kmeans.predict(x_dense)], [cluster_map['cluster'] =
    kmeans.labels_].

    How scikit-learn finds the centres (seeding from the random generator,
    the iterations and their cap) is a parameter: a function of the
    generator's state, of [n_clusters] and of the data that returns the
    centres and the generator's state afterwards.  [fit] checks its
    arguments, draws from the generator that [random_state] names and labels
    every sample with the index of its nearest centre. *)

Module KMeans.

Section Model.

Context {A : Type} {N : Number A}.

Variable RandomState : Type.
(** [np.random.RandomState(seed)] *)
Variable RandomState_of_seed : nat -> RandomState.
Variable kmeans_centers :
  RandomState -> nat -> list (list A) -> list (list A) * RandomState.

(** The squared Euclidean distance. *)
Definition sqdist (u v : list A) : A :=
  num_sum (map (fun p => let d := num_sub (fst p) (snd p) in num_mul d d)
               (combine u v)).

(** [np.argmin]: the first index of a least element. *)
Fixpoint argmin_from (best_i : nat) (best : A) (i : nat) (l : list A) : nat :=
  match l with
  | [] => best_i
  | d :: l' =>
      if num_ltb d best then argmin_from i d (S i) l'
      else argmin_from best_i best (S i) l'
  end.

Definition argmin (l : list A) : nat :=
  match l with
  | [] => 0
  | d :: l' => argmin_from 0 d 1 l'
  end.

Definition nearest (centers : list (list A)) (x : list A) : nat :=
  argmin (map (sqdist x) centers).

Record fitted : Type := {
  cluster_centers_ : list (list A);
  labels_ : list nat
}.

(** [KMeans(n_clusters, random_state).fit(X)] with the state of numpy's
    global generator before and after.  An integer [random_state] seeds a
    generator of its own; [None] uses, and advances, the global one.
    [n_samples < n_clusters] is a [ValueError].  [n_clusters = 0] is refused
    too, with an exception whose class depends on the version of scikit-learn
    ([OverflowError] in 1.1, a [ValueError] from 1.2); the notebook's [k] is
    3 and no statement below is about [n_clusters = 0].  [labels_] is the
    index of the nearest centre: "the estimator will reassign [labels_] after
    the last iteration to make [labels_] consistent with [predict] on the
    training set" (the notes of the class); what may be inconsistent when the
    iteration stops early is that the centres are the means of their
    clusters, which nothing here uses. *)
Definition fit (global : RandomState) (n_clusters : nat)
    (random_state : option nat) (X : list (list A))
    : result fitted * RandomState :=
  if (n_clusters =? 0) || (List.length X <? n_clusters) then
    (Raise ValueError, global)
  else
    let rs := match random_state with
              | Some seed => RandomState_of_seed seed
              | None => global
              end in
    let (centers, rs') := kmeans_centers rs n_clusters X in
    (Ok {| cluster_centers_ := centers;
           labels_ := map (nearest centers) X |},
     match random_state with
     | Some _ => global
     | None => rs'
     end).

Definition predict (m : fitted) (X : list (list A)) : list nat :=
  map (nearest (cluster_centers_ m)) X.

(** The clustering cell with its constants [k] and [random_state] as
    arguments: the cluster column of [cluster_map]. *)
Definition cluster (global : RandomState) (x_dense : list (list A))
    (k seed : nat) : result (list nat) * RandomState :=
  let (r, global') := fit global k (Some seed) x_dense in
  (m <- r ;; Ok (labels_ m), global').

(** The cell as the notebook has it: [k=3], [random_state=0]. *)
Definition cluster_map (global : RandomState) (x_dense : list (list A))
    : result (list nat) * RandomState :=
  cluster global x_dense 3 0.

End Model.

(** An instance of the parameters for the examples: the generator is a
    counter and the centres are the first [n_clusters] samples. *)
Definition first_samples {A : Type} (rs : nat) (n_clusters : nat)
    (X : list (list A)) : list (list A) * nat :=
  (firstn n_clusters X, S rs).

End KMeans.

(** ** Top terms

    [X] is the document-term matrix: its rows and its number of columns. *)

Record matrix (A : Type) : Type := {
  rows : list (list A);
  ncols : nat
}.

Module Ranker.

Section Ranking.

Context {A : Type} {N : Number A}.

(** [xs[i]] on a Python list or a matrix: out of range is an [IndexError]. *)
Definition index {B : Type} (xs : list B) (i : nat) : result B :=
  match nth_error xs i with
  | Some x => Ok x
  | None => Raise IndexError
  end.

(** [def top_tfidf_feats(row, features, top_n=20)]:
    [topn_ids = np.argsort(row)[::-1][:top_n]],
    [top_feats = [(features[i], row[i]) for i in topn_ids]];
    first with the sort as an argument, then with [np.argsort]. *)
Definition topn_ids_with (argsort : list A -> list nat) (row : list A)
    (top_n : nat) : list nat :=
  firstn top_n (rev (argsort row)).

Definition top_tfidf_feats_with (argsort : list A -> list nat)
    (row : list A) (features : list string) (top_n : nat)
    : result (list (string * A)) :=
  mapM (fun i => f <- index features i ;; Ok (f, np.item row i))
       (topn_ids_with argsort row top_n).

Definition topn_ids (row : list A) (top_n : nat) : list nat :=
  topn_ids_with np.argsort row top_n.

Definition top_tfidf_feats (row : list A) (features : list string)
    (top_n : nat) : result (list (string * A)) :=
  top_tfidf_feats_with np.argsort row features top_n.

(** [np.squeeze] of the [1 x ncols] array [X[row_id].toarray()] drops every
    axis of length one: the row as a one-dimensional array, except that with
    a single column nothing is left to index and the result is the
    zero-dimensional array of the one weight. *)
Inductive squeezed : Type :=
  | Array0 (w : A)
  | Array1 (row : list A).

Definition squeeze (row : list A) : squeezed :=
  match row with
  | [w] => Array0 w
  | _ => Array1 row
  end.

(** [top_tfidf_feats] on a zero-dimensional [row]: [np.argsort] takes it for
    an array of one entry and returns [[0]]; in the comprehension
    [features[0]] is read first and then [row[0]], which is an [IndexError]
    ("too many indices for array"). *)
Definition top_tfidf_feats_0d (features : list string) (top_n : nat)
    : result (list (string * A)) :=
  mapM (fun i => f <- index features i ;; Raise IndexError)
       (firstn top_n [0]).

(** [def top_feats_in_doc(X, features, row_id, top_n=25)]:
    [row = np.squeeze(X[row_id].toarray())]. *)
Definition top_feats_in_doc (X : matrix A) (features : list string)
    (row_id : nat) (top_n : nat) : result (list (string * A)) :=
  row <- index (rows X) row_id ;;
  match squeeze row with
  | Array0 _ => top_tfidf_feats_0d features top_n
  | Array1 row => top_tfidf_feats row features top_n
  end.

(** [if grp_ids:] on [None] or a list: only a list with an element is true. *)
Definition truthy (grp_ids : option (list nat)) : bool :=
  match grp_ids with
  | Some (_ :: _) => true
  | _ => false
  end.

(** [X[grp_ids].toarray()] *)
Definition take_rows (X : matrix A) (grp_ids : option (list nat))
    : result (list (list A)) :=
  match grp_ids with
  | Some ids => mapM (index (rows X)) ids
  | None => Raise TypeError
  end.

(** [D[D < min_tfidf] = 0] *)
Definition denoise (min_tfidf : A) (D : list (list A)) : list (list A) :=
  map (map (fun w => if num_ltb w min_tfidf then num_zero else w)) D.

(** [def top_mean_feats(X, features, grp_ids=None, min_tfidf=0.1, top_n=25)] *)
Definition top_mean_feats (X : matrix A) (features : list string)
    (grp_ids : option (list nat)) (min_tfidf : A) (top_n : nat)
    : result (list (string * A)) :=
  D <- (if truthy grp_ids then take_rows X grp_ids else Ok (rows X)) ;;
  let D := denoise min_tfidf D in
  let tfidf_means := np.mean_axis0 (ncols X) D in
  top_tfidf_feats tfidf_means features top_n.

End Ranking.

End Ranker.

(** ** The keyword query

    [x = np.count_nonzero(cosine_sim)],
    [related_email_indices = cosine_sim.argsort()[:-x:-1]] *)

Module Query.

Section Search.

Context {A : Type} {N : Number A}.

(** First with the sort as an argument, then with [np.argsort]. *)
Definition related_email_indices_with (argsort : list A -> list nat)
    (cosine_sim : list A) : list nat :=
  let x := np.count_nonzero cosine_sim in
  np.slice_stop_rev (argsort cosine_sim) (- Z.of_nat x).

Definition related_email_indices (cosine_sim : list A) : list nat :=
  related_email_indices_with np.argsort cosine_sim.

End Search.

(** The query cells on a corpus of cleaned bodies, from the fit to the
    indices. *)
Definition search (ENGLISH_STOP_WORDS : list string)
    (tokenize : string -> list string) (bodies : list string)
    (query : string) : result (list nat) :=
  vx <- Tfidf.fit_transform ENGLISH_STOP_WORDS tokenize bodies ;;
  let x_dense := snd vx in
  let cosine_sim :=
    Tfidf.cosine_sim ENGLISH_STOP_WORDS tokenize (fst vx) x_dense query in
  Ok (related_email_indices cosine_sim).

(** Modelled from the spec: [search(query, threshold)] of section 4.5, on the
    similarities: "every document with similarity strictly greater than
    threshold, ordered descending by score; ties broken by ascending document
    index".  [insert_desc] puts an index after the indices that score at
    least as much. *)
Section Spec.

Context {A : Type} {N : Number A}.

Fixpoint insert_desc (a : list A) (i : nat) (l : list nat) : list nat :=
  match l with
  | [] => [i]
  | j :: l' =>
      if num_leb (np.item a i) (np.item a j) then j :: insert_desc a i l'
      else i :: j :: l'
  end.

Definition search_spec (cosine_sim : list A) (threshold : A) : list nat :=
  fold_left (fun l i => insert_desc cosine_sim i l)
    (filter (fun i => num_ltb threshold (np.item cosine_sim i))
            (seq 0 (List.length cosine_sim)))
    [].

End Spec.

End Query.

(** ** Tagging

    [emaildict = {}], [for item in related_email_indices: dictvalue =
    pdraw.loc[item, 'EmailID']; emaildict[dictvalue] = query], then the double
    loop over the messages of the inbox and the keys of the dictionary. *)

Module Tagger.

Local Open Scope string_scope.

(** A [dict] in insertion order. *)
Definition dict : Type := list (string * string).

(** [d[k] = v] *)
Fixpoint dict_set (d : dict) (k v : string) : dict :=
  match d with
  | [] => [(k, v)]
  | (k', v') :: d' =>
      if String.eqb k' k then (k', v) :: d' else (k', v') :: dict_set d' k v
  end.

(** [d.get(k)] *)
Fixpoint dict_get (d : dict) (k : string) : option string :=
  match d with
  | [] => None
  | (k', v) :: d' => if String.eqb k' k then Some v else dict_get d' k
  end.

Definition keys (d : dict) : list string := map fst d.

(** [pdraw.loc[item, 'EmailID']] on the frame's default index; a label that
    is not in the index is a [KeyError], here [None]. *)
Definition loc_EmailID (frame : list Row) (item : nat) : option string :=
  option_map EmailID (nth_error frame item).

(** The loop that fills [emaildict]; [None] when [.loc] raised. *)
Fixpoint emaildict_from (frame : list Row) (query : string)
    (related_email_indices : list nat) (emaildict : dict) : option dict :=
  match related_email_indices with
  | [] => Some emaildict
  | item :: rest =>
      match loc_EmailID frame item with
      | Some dictvalue =>
          emaildict_from frame query rest (dict_set emaildict dictvalue query)
      | None => None
      end
  end.

Definition emaildict (frame : list Row) (query : string)
    (related_email_indices : list nat) : option dict :=
  emaildict_from frame query related_email_indices [].

(** [message.Categories = v] followed by [message.Save()]: the store keeps
    the new category unless [Save] raises. *)
Definition set_Categories (message : MailItem) (v : string) : MailItem :=
  {| EntryID := EntryID message;
     SenderEmailAddress := SenderEmailAddress message;
     ReceivedTime := ReceivedTime message;
     subject := subject message;
     body := body message;
     Parent := Parent message;
     Categories := v;
     Save_raises := Save_raises message |}.

Definition Save (message : MailItem) (v : string) : result MailItem :=
  if Save_raises message then Raise com_error
  else Ok (set_Categories message v).

(** What the inner loop makes of a message when nothing raises: the
    category of its [EntryID] in the dictionary, if it is a key. *)
Definition tagged (d : dict) (message : MailItem) : MailItem :=
  match EntryID message with
  | Returned id =>
      match dict_get d id with
      | Some v => set_Categories message v
      | None => message
      end
  | ComFails => message
  end.

(** [for key in emaildict: if message.EntryID == key: ...] *)
Fixpoint tag_message (message : MailItem) (keys : dict) : result MailItem :=
  match keys with
  | [] => Ok message
  | (key, v) :: rest =>
      id <- get (EntryID message) ;;
      if String.eqb id key then
        message' <- Save message v ;; tag_message message' rest
      else tag_message message rest
  end.

(** [for message in messages: ...]: the store after the loop and the
    exception that ended it, if one did.  Nothing catches an exception: the
    messages after the one that raised are left as they were. *)
Fixpoint tag_messages (messages : list MailItem) (emaildict : dict)
    : list MailItem * option exn :=
  match messages with
  | [] => ([], None)
  | message :: rest =>
      match tag_message message emaildict with
      | Ok message' =>
          let (rest', e) := tag_messages rest emaildict in
          (message' :: rest', e)
      | Raise e => (message :: rest, Some e)
      end
  end.

End Tagger.

(** ** Predicates on text, for the statements about cleaning *)

Module Text.

(** Every character of [s] satisfies [P]. *)
Fixpoint all_chars (P : ascii -> bool) (s : string) : bool :=
  match s with
  | EmptyString => true
  | String c s' => P c && all_chars P s'
  end.

Definition is_space (c : ascii) : bool := Ascii.eqb c " ".

(** A letter, a digit or a space. *)
Definition alnum_or_space (c : ascii) : bool := PyRe.alnum c || is_space c.

(** No two spaces in a row. *)
Fixpoint no_double_space (s : string) : bool :=
  match s with
  | EmptyString => true
  | String c s' =>
      match s' with
      | EmptyString => true
      | String c' _ => negb (is_space c && is_space c') && no_double_space s'
      end
  end.

(** The number of spaces [s] starts with. *)
Fixpoint leading_spaces (s : string) : nat :=
  match s with
  | EmptyString => 0
  | String c s' => if is_space c then S (leading_spaces s') else 0
  end.

(** [s] does not start with a space. *)
Definition starts_without_space (s : string) : bool :=
  match s with
  | EmptyString => true
  | String c _ => negb (is_space c)
  end.

End Text.

(** The order of the features: [s <= t] on Python strings. *)
Definition string_le (s t : string) : Prop := String.leb s t = true.

(** * Properties *)

(** ** The two number instances are ordered *)

#[export] Instance NumberOrder_Q : NumberOrder Q.
Proof.
  split; simpl.
  - intros a b. rewrite !Qle_bool_iff.
    destruct (Qlt_le_dec a b) as [H|H]; [left; apply Qlt_le_weak, H | right; exact H].
  - intros a b c. rewrite !Qle_bool_iff. apply Qle_trans.
Qed.

Lemma Rleb_le (x y : R) : Rleb x y = true <-> (x <= y)%R.
Proof.
  unfold Rleb. destruct (Rle_dec x y); split; intros; try easy.
Qed.

#[export] Instance NumberOrder_R : NumberOrder R.
Proof.
  split; simpl.
  - intros a b. rewrite !Rleb_le. lra.
  - intros a b c. rewrite !Rleb_le. lra.
Qed.

(** ** Fallible comprehensions *)

Lemma mapM_total {A B : Type} (f : A -> result B) (g : A -> B) (xs : list A) :
  Forall (fun x => f x = Ok (g x)) xs -> mapM f xs = Ok (map g xs).
Proof.
  induction 1 as [|x xs Hx _ IH]; simpl.
  - reflexivity.
  - rewrite Hx; simpl. rewrite IH. reflexivity.
Qed.

Lemma mapM_raises {B C : Type} (f : B -> result C) (e : exn) (l : list B) :
  (forall x, In x l -> (exists y, f x = Ok y) \/ f x = Raise e) ->
  Exists (fun x => f x = Raise e) l ->
  mapM f l = Raise e.
Proof.
  induction l as [|x l IH]; intros Hall Hex; [inversion Hex|].
  simpl. destruct (Hall x (or_introl eq_refl)) as [[y Hy]|Hx].
  - rewrite Hy. simpl. rewrite IH; [reflexivity | |].
    + intros z Hz. apply Hall. right. exact Hz.
    + inversion Hex as [? ? Hx|]; subst; [congruence | assumption].
  - rewrite Hx. reflexivity.
Qed.

Lemma mapM_ok {B C : Type} (f : B -> result C) (l : list B) :
  Forall (fun x => exists y, f x = Ok y) l ->
  exists ys, mapM f l = Ok ys /\ List.length ys = List.length l.
Proof.
  induction 1 as [|x l [y Hy] _ (ys & Hys & Hlen)]; simpl.
  - exists []. auto.
  - rewrite Hy. simpl. rewrite Hys. simpl. exists (y :: ys).
    simpl. auto.
Qed.

(** ** [np.argsort] *)

Section ArgsortFacts.

Context {A : Type} {N : Number A} {O : NumberOrder A}.

Variable a : list A.

Lemma insert_perm (i : nat) (l : list nat) :
  Permutation (np.insert a i l) (i :: l).
Proof.
  induction l as [|j l IH]; simpl.
  - apply Permutation_refl.
  - destruct (num_leb (np.item a i) (np.item a j)).
    + apply Permutation_refl.
    + eapply perm_trans; [apply perm_skip, IH | apply perm_swap].
Qed.

Lemma insert_sorted (i : nat) (l : list nat) :
  StronglySorted (asc a) l -> Forall (fun j => i < j) l ->
  StronglySorted (asc a) (np.insert a i l).
Proof.
  induction 1 as [|j l Hs IH Hj]; intros Hlt; simpl.
  - constructor; constructor.
  - inversion Hlt as [|? ? Hij Hl]; subst.
    destruct (num_leb (np.item a i) (np.item a j)) eqn:E.
    + constructor; [constructor; assumption|].
      constructor; [split; [exact E | intros _; exact Hij]|].
      rewrite Forall_forall in *. intros k Hk.
      destruct (Hj k Hk) as [Hjk _].
      split; [eapply num_leb_trans; eassumption | intros _; apply Hl, Hk].
    + constructor; [apply IH, Hl|].
      assert (Hji : asc a j i).
      { destruct (num_leb_total (np.item a i) (np.item a j)) as [H|H];
          [congruence|].
        split; [exact H | intros H'; congruence]. }
      rewrite Forall_forall. intros k Hk.
      apply (Permutation_in _ (insert_perm i l)) in Hk.
      destruct Hk as [<-|Hk]; [exact Hji|].
      rewrite Forall_forall in Hj. apply Hj, Hk.
Qed.

Lemma argsort_from_sorted (start len : nat) :
  StronglySorted (asc a) (fold_right (np.insert a) [] (seq start len)) /\
  Permutation (fold_right (np.insert a) [] (seq start len)) (seq start len).
Proof.
  revert start. induction len as [|len IH]; intros start; simpl.
  - split; constructor.
  - destruct (IH (S start)) as [Hs Hp]. split.
    + apply insert_sorted; [exact Hs|].
      rewrite Forall_forall. intros j Hj.
      apply (Permutation_in _ Hp), in_seq in Hj. lia.
    + eapply perm_trans; [apply insert_perm | apply perm_skip, Hp].
Qed.

Lemma argsort_perm : Permutation (np.argsort a) (seq 0 (List.length a)).
Proof. apply argsort_from_sorted. Qed.

Lemma argsort_sorted : StronglySorted (asc a) (np.argsort a).
Proof. apply argsort_from_sorted. Qed.

Lemma argsort_length : List.length (np.argsort a) = List.length a.
Proof.
  rewrite (Permutation_length argsort_perm). apply length_seq.
Qed.

Lemma argsort_NoDup : NoDup (np.argsort a).
Proof.
  apply (Permutation_NoDup (Permutation_sym argsort_perm)), seq_NoDup.
Qed.

Lemma argsort_in (i : nat) : In i (np.argsort a) <-> i < List.length a.
Proof.
  split; intros H.
  - apply (Permutation_in _ argsort_perm), in_seq in H. lia.
  - apply (Permutation_in _ (Permutation_sym argsort_perm)), in_seq. lia.
Qed.

End ArgsortFacts.

(** ** Sorted lists: reversal, prefixes, filters *)

Lemma StronglySorted_snoc {B : Type} (R : B -> B -> Prop) (l : list B) (x : B) :
  StronglySorted R l -> Forall (fun y => R y x) l ->
  StronglySorted R (l ++ [x]).
Proof.
  induction 1 as [|y l Hs IH Hy]; intros Hx; simpl.
  - constructor; constructor.
  - inversion Hx; subst. constructor; [apply IH; assumption|].
    apply Forall_app. split; [assumption | constructor; [assumption | constructor]].
Qed.

Section SortedFacts.

Variable B : Type.
Variable R : B -> B -> Prop.

Lemma StronglySorted_rev (l : list B) :
  StronglySorted R l -> StronglySorted (fun x y => R y x) (rev l).
Proof.
  induction 1 as [|x l Hs IH Hx]; simpl.
  - constructor.
  - apply StronglySorted_snoc; [exact IH | apply Forall_rev, Hx].
Qed.

Lemma StronglySorted_firstn (n : nat) (l : list B) :
  StronglySorted R l -> StronglySorted R (firstn n l).
Proof.
  intros Hs. revert n. induction Hs as [|x l Hs IH Hx]; intros [|n]; simpl;
    try constructor.
  - apply IH.
  - rewrite Forall_forall in *. intros y Hy. apply Hx.
    rewrite <- (firstn_skipn n l). apply in_or_app. left. exact Hy.
Qed.

Lemma StronglySorted_app_cross (l1 l2 : list B) :
  StronglySorted R (l1 ++ l2) ->
  forall x y, In x l1 -> In y l2 -> R x y.
Proof.
  induction l1 as [|z l1 IH]; simpl; intros Hs x y Hx Hy; [contradiction|].
  apply StronglySorted_inv in Hs. destruct Hs as [Hs Hz].
  destruct Hx as [<-|Hx].
  - rewrite Forall_forall in Hz. apply Hz, in_or_app. right. exact Hy.
  - apply IH; assumption.
Qed.

(** A property that passes from an element to everything before it holds
    exactly on a prefix. *)
Lemma sorted_filter_prefix (P : B -> bool) (l : list B) :
  StronglySorted R l ->
  (forall x y, R x y -> P y = true -> P x = true) ->
  filter P l = firstn (List.length (filter P l)) l.
Proof.
  intros Hs Hup. induction Hs as [|x l Hs IH Hx]; simpl; [reflexivity|].
  destruct (P x) eqn:E; simpl.
  - f_equal. exact IH.
  - assert (Hnone : filter P l = []).
    { clear IH. induction l as [|y l IHl]; simpl; [reflexivity|].
      inversion Hx; subst. inversion Hs; subst.
      destruct (P y) eqn:Ey.
      - rewrite (Hup x y) in E by assumption. discriminate.
      - apply IHl; assumption. }
    rewrite Hnone. reflexivity.
Qed.

End SortedFacts.

Lemma filter_length_perm {B : Type} (f : B -> bool) (l l' : list B) :
  Permutation l l' -> List.length (filter f l) = List.length (filter f l').
Proof.
  induction 1 as [|x l l' _ IH|x y l|l l' l'' _ IH1 _ IH2]; simpl.
  - reflexivity.
  - destruct (f x); simpl; congruence.
  - destruct (f x), (f y); reflexivity.
  - congruence.
Qed.

Lemma filter_nth_seq {B : Type} (f : B -> bool) (d : B) (l : list B) :
  List.length (filter (fun i => f (nth i l d)) (seq 0 (List.length l))) =
  List.length (filter f l).
Proof.
  induction l as [|x l IH]; simpl; [reflexivity|].
  rewrite <- seq_shift, filter_map_swap.
  destruct (f x); simpl; rewrite length_map, IH; reflexivity.
Qed.

Lemma firstn_incl {B : Type} (n m : nat) (l : list B) (x : B) :
  n <= m -> In x (firstn n l) -> In x (firstn m l).
Proof.
  intros Hnm Hx. rewrite <- (Nat.min_l n m Hnm), <- firstn_firstn in Hx.
  rewrite <- (firstn_skipn n (firstn m l)). apply in_or_app. left. exact Hx.
Qed.

Lemma firstn_succ {B : Type} (d : B) (n : nat) (l : list B) :
  n < List.length l -> firstn (S n) l = firstn n l ++ [nth n l d].
Proof.
  revert n. induction l as [|x l IH]; intros n Hn; simpl in Hn; [lia|].
  destruct n; [reflexivity|]. simpl. f_equal. apply IH. lia.
Qed.

Lemma firstn_prefix {B : Type} (n : nat) (l : list B) :
  exists rest, l = firstn n l ++ rest.
Proof. exists (skipn n l). symmetry. apply firstn_skipn. Qed.

(** ** Top terms of one row *)

Section RankerFacts.

Context {A : Type} {N : Number A} {O : NumberOrder A}.

Lemma ranking_sorted (row : list A) :
  StronglySorted (desc row) (rev (np.argsort row)).
Proof.
  apply (StronglySorted_rev (R := asc row)), argsort_sorted.
Qed.

Lemma ranking_perm (row : list A) :
  Permutation (rev (np.argsort row)) (seq 0 (List.length row)).
Proof.
  eapply perm_trans; [apply Permutation_sym, Permutation_rev | apply argsort_perm].
Qed.

Lemma index_features (features : list string) (i : nat) :
  i < List.length features ->
  Ranker.index features i = Ok (nth i features ""%string).
Proof.
  intros Hi. unfold Ranker.index.
  rewrite (nth_error_nth' features ""%string Hi). reflexivity.
Qed.

Lemma topn_ids_in (row : list A) (top_n i : nat) :
  In i (Ranker.topn_ids row top_n) -> i < List.length row.
Proof.
  unfold Ranker.topn_ids, Ranker.topn_ids_with. intros H.
  destruct (firstn_prefix top_n (rev (np.argsort row))) as [rest E].
  assert (Hin : In i (rev (np.argsort row))).
  { rewrite E. apply in_or_app. left. exact H. }
  rewrite <- in_rev in Hin. apply argsort_in in Hin. exact Hin.
Qed.

End RankerFacts.

Section RankingTheorems.

Context {A : Type} {N : Number A} {O : NumberOrder A}.

Lemma firstn_NoDup {B : Type} (n : nat) (l : list B) :
  NoDup l -> NoDup (firstn n l).
Proof.
  intros H. rewrite <- (firstn_skipn n l) in H.
  apply NoDup_app_remove_r in H. exact H.
Qed.

Lemma topn_ids_outranks (row : list A) (top_n i j : nat) :
  In i (Ranker.topn_ids row top_n) -> j < List.length row ->
  ~ In j (Ranker.topn_ids row top_n) -> desc row i j.
Proof.
  unfold Ranker.topn_ids, Ranker.topn_ids_with. intros Hi Hj Hnj.
  pose proof (ranking_sorted row) as Hs.
  rewrite <- (firstn_skipn top_n (rev (np.argsort row))) in Hs.
  eapply StronglySorted_app_cross; [exact Hs | exact Hi |].
  assert (Hin : In j (rev (np.argsort row))).
  { rewrite <- in_rev. apply argsort_in. exact Hj. }
  rewrite <- (firstn_skipn top_n (rev (np.argsort row))) in Hin.
  apply in_app_or in Hin. destruct Hin as [Hin|Hin]; [contradiction | exact Hin].
Qed.

Lemma topn_ids_length (row : list A) (top_n : nat) :
  List.length (Ranker.topn_ids row top_n) = Nat.min top_n (List.length row).
Proof.
  unfold Ranker.topn_ids, Ranker.topn_ids_with.
  rewrite length_firstn, length_rev, argsort_length. reflexivity.
Qed.

(** With a name for every column the comprehension raises nothing. *)
Lemma top_tfidf_feats_ok (row : list A) (features : list string)
    (top_n : nat) :
  List.length features = List.length row ->
  Ranker.top_tfidf_feats row features top_n =
    Ok (map (fun i => (nth i features ""%string, np.item row i))
            (Ranker.topn_ids row top_n)).
Proof.
  intros Hlen. unfold Ranker.top_tfidf_feats, Ranker.top_tfidf_feats_with.
  apply mapM_total.
  rewrite Forall_forall. intros i Hi.
  apply topn_ids_in in Hi. rewrite index_features by lia. reflexivity.
Qed.

(** *** The keyword query *)

Lemma count_nonzero_le (a : list A) : np.count_nonzero a <= List.length a.
Proof. apply filter_length_le. Qed.

Lemma related_email_indices_firstn (cosine_sim : list A) :
  1 <= np.count_nonzero cosine_sim ->
  Query.related_email_indices cosine_sim =
  firstn (np.count_nonzero cosine_sim - 1) (rev (np.argsort cosine_sim)).
Proof.
  intros Hx. pose proof (count_nonzero_le cosine_sim) as Hle.
  unfold Query.related_email_indices, Query.related_email_indices_with,
    np.slice_stop_rev.
  rewrite argsort_length.
  destruct (Z.ltb_spec (- Z.of_nat (np.count_nonzero cosine_sim)) 0); [|lia].
  destruct (Z.ltb_spec (- Z.of_nat (np.count_nonzero cosine_sim)
                        + Z.of_nat (List.length cosine_sim)) 0); [lia|].
  f_equal. lia.
Qed.

(** With no similarity below zero, the documents of non-zero similarity are
    the first [x] of the ranking. *)
Lemma positives_first (cosine_sim : list A) :
  (forall i, num_leb num_zero (np.item cosine_sim i) = true) ->
  filter (fun i => nonzero (np.item cosine_sim i)) (rev (np.argsort cosine_sim))
  = firstn (np.count_nonzero cosine_sim) (rev (np.argsort cosine_sim)).
Proof.
  intros Hpos.
  rewrite (sorted_filter_prefix (R := desc cosine_sim)
             (fun i => nonzero (np.item cosine_sim i))
             (ranking_sorted cosine_sim)).
  - f_equal. rewrite (filter_length_perm _ (ranking_perm cosine_sim)).
    apply (filter_nth_seq nonzero num_zero).
  - intros i j [Hji _] Hj. unfold nonzero, num_eqb in *.
    apply negb_true_iff, andb_false_iff. apply negb_true_iff in Hj.
    left. destruct (num_leb (np.item cosine_sim i) num_zero) eqn:E; [|reflexivity].
    rewrite (num_leb_trans _ _ _ Hji E), (Hpos j) in Hj. discriminate.
Qed.

Lemma item_nonneg (cosine_sim : list A) :
  Forall (fun s => num_leb num_zero s = true) cosine_sim ->
  forall i, num_leb num_zero (np.item cosine_sim i) = true.
Proof.
  intros H i. unfold np.item.
  destruct (Nat.lt_ge_cases i (List.length cosine_sim)) as [Hi|Hi].
  - rewrite Forall_forall in H. apply H, nth_In, Hi.
  - rewrite nth_overflow by exact Hi.
    destruct (num_leb_total num_zero num_zero); assumption.
Qed.

(** What is returned has a similarity above zero. *)
Lemma related_email_indices_positive (cosine_sim : list A) :
  Forall (fun s => num_leb num_zero s = true) cosine_sim ->
  1 <= np.count_nonzero cosine_sim ->
  Forall (fun i => i < List.length cosine_sim /\
                   num_ltb num_zero (np.item cosine_sim i) = true)
         (Query.related_email_indices cosine_sim).
Proof.
  intros Hpos Hx. rewrite (related_email_indices_firstn _ Hx).
  pose proof (item_nonneg Hpos) as Hitem.
  rewrite Forall_forall. intros i Hi.
  assert (Hin : In i (filter (fun i => nonzero (np.item cosine_sim i))
                             (rev (np.argsort cosine_sim)))).
  { rewrite (positives_first _ Hitem).
    eapply firstn_incl; [|exact Hi]. lia. }
  apply filter_In in Hin. destruct Hin as [Hin Hnz]. split.
  - rewrite <- in_rev in Hin. apply argsort_in in Hin. exact Hin.
  - unfold num_ltb. unfold nonzero, num_eqb in Hnz.
    rewrite (Hitem i), andb_true_r in Hnz. exact Hnz.
Qed.

(** The slice [[:-x:-1]] stops one short of the [x] documents counted: the
    matching document that ranks last is not among the indices. *)
Lemma related_email_indices_length (cosine_sim : list A) :
  1 <= np.count_nonzero cosine_sim ->
  List.length (Query.related_email_indices cosine_sim) =
  np.count_nonzero cosine_sim - 1.
Proof.
  intros Hx. rewrite (related_email_indices_firstn _ Hx).
  rewrite length_firstn, length_rev, argsort_length.
  pose proof (count_nonzero_le cosine_sim). lia.
Qed.

End RankingTheorems.

(** ** The rankings under any sort

    numpy fixes the order of the values that [argsort] returns and leaves the
    order of equal values to the kind of sort.  What the notebook's two
    rankings promise is therefore proved of every function that
    [np.sorts]. *)

Lemma StronglySorted_weaken {B : Type} (R R' : B -> B -> Prop) (l : list B) :
  (forall x y, R x y -> R' x y) -> StronglySorted R l -> StronglySorted R' l.
Proof.
  intros HR. induction 1 as [|x l _ IH Hx]; constructor; [exact IH|].
  eapply Forall_impl; [|exact Hx]. intros y. apply HR.
Qed.

(** [np.argsort] as modelled is one of these functions. *)
Lemma argsort_sorts {A : Type} {N : Number A} {O : NumberOrder A} :
  np.sorts (np.argsort (A := A)).
Proof.
  intros a. split; [apply argsort_perm|].
  apply StronglySorted_weaken with (R := asc a); [|apply argsort_sorted].
  intros i j [H _]. exact H.
Qed.

Section AnyKind.

Context {A : Type} {N : Number A} {O : NumberOrder A}.

Variable argsort : list A -> list nat.
Hypothesis argsort_kind : np.sorts argsort.

Lemma sorts_length (a : list A) : List.length (argsort a) = List.length a.
Proof.
  rewrite (Permutation_length (proj1 (argsort_kind a))). apply length_seq.
Qed.

Lemma sorts_NoDup (a : list A) : NoDup (argsort a).
Proof.
  apply (Permutation_NoDup (Permutation_sym (proj1 (argsort_kind a)))),
    seq_NoDup.
Qed.

Lemma sorts_in (a : list A) (i : nat) :
  In i (argsort a) <-> i < List.length a.
Proof.
  split; intros H.
  - apply (Permutation_in _ (proj1 (argsort_kind a))), in_seq in H. lia.
  - apply (Permutation_in _ (Permutation_sym (proj1 (argsort_kind a)))),
      in_seq. lia.
Qed.

(** Read backwards, the values descend. *)
Lemma sorts_ranking (a : list A) :
  StronglySorted (fun i j => np.ascends a j i) (rev (argsort a)).
Proof.
  apply (StronglySorted_rev (R := np.ascends a)), argsort_kind.
Qed.

Lemma topn_ids_with_in (row : list A) (top_n i : nat) :
  In i (Ranker.topn_ids_with argsort row top_n) -> i < List.length row.
Proof.
  unfold Ranker.topn_ids_with. intros H.
  destruct (firstn_prefix top_n (rev (argsort row))) as [rest E].
  assert (Hin : In i (rev (argsort row))).
  { rewrite E. apply in_or_app. left. exact H. }
  rewrite <- in_rev in Hin. apply sorts_in in Hin. exact Hin.
Qed.

(** C8, as the code has it, for every kind of sort:
    [top_tfidf_feats(row, features, top_n)] returns [min(top_n, len(row))]
    pairs (term, weight), for distinct terms of the vocabulary, in descending
    order of weight; every term left out weighs no more than any term
    returned; and when [top_n] is at least the vocabulary size every term is
    returned, those of weight zero included.  In which order terms of equal
    weight come is the sort's affair. *)
Theorem top_tfidf_feats_ranking (row : list A) (features : list string)
    (top_n : nat) :
  List.length features = List.length row ->
  let ids := Ranker.topn_ids_with argsort row top_n in
  Ranker.top_tfidf_feats_with argsort row features top_n =
    Ok (map (fun i => (nth i features ""%string, np.item row i)) ids)
  /\ List.length ids = Nat.min top_n (List.length row)
  /\ NoDup ids
  /\ Forall (fun i => i < List.length row) ids
  /\ StronglySorted (fun i j => np.ascends row j i) ids
  /\ (forall i j, In i ids -> j < List.length row -> ~ In j ids ->
      np.ascends row j i)
  /\ (List.length row <= top_n -> Permutation ids (seq 0 (List.length row))).
Proof.
  intros Hlen ids.
  assert (Hin : Forall (fun i => i < List.length row) ids).
  { rewrite Forall_forall. intros i. apply topn_ids_with_in. }
  refine (conj _ (conj _ (conj _ (conj Hin (conj _ (conj _ _)))))).
  - unfold Ranker.top_tfidf_feats_with. apply mapM_total.
    eapply Forall_impl; [|exact Hin]. intros i Hi. simpl in Hi.
    rewrite index_features by lia. reflexivity.
  - unfold ids, Ranker.topn_ids_with.
    rewrite length_firstn, length_rev, sorts_length. reflexivity.
  - apply firstn_NoDup, NoDup_rev, sorts_NoDup.
  - apply StronglySorted_firstn, sorts_ranking.
  - intros i j Hi Hj Hnj. unfold ids, Ranker.topn_ids_with in *.
    pose proof (sorts_ranking row) as Hs.
    rewrite <- (firstn_skipn top_n (rev (argsort row))) in Hs.
    eapply StronglySorted_app_cross
      with (R := fun i j => np.ascends row j i); [exact Hs | exact Hi |].
    assert (Hj' : In j (rev (argsort row)))
      by (rewrite <- in_rev; apply sorts_in; exact Hj).
    rewrite <- (firstn_skipn top_n (rev (argsort row))) in Hj'.
    apply in_app_or in Hj'. destruct Hj' as [Hj'|Hj'];
      [contradiction | exact Hj'].
  - intros Hn. unfold ids, Ranker.topn_ids_with.
    rewrite firstn_all2 by (rewrite length_rev, sorts_length; exact Hn).
    eapply perm_trans; [apply Permutation_sym, Permutation_rev|].
    apply argsort_kind.
Qed.

(** *** The keyword query *)

Lemma related_email_indices_with_firstn (cosine_sim : list A) :
  1 <= np.count_nonzero cosine_sim ->
  Query.related_email_indices_with argsort cosine_sim =
  firstn (np.count_nonzero cosine_sim - 1) (rev (argsort cosine_sim)).
Proof.
  intros Hx. pose proof (count_nonzero_le cosine_sim) as Hle.
  unfold Query.related_email_indices_with, np.slice_stop_rev.
  rewrite sorts_length.
  destruct (Z.ltb_spec (- Z.of_nat (np.count_nonzero cosine_sim)) 0); [|lia].
  destruct (Z.ltb_spec (- Z.of_nat (np.count_nonzero cosine_sim)
                        + Z.of_nat (List.length cosine_sim)) 0); [lia|].
  f_equal. lia.
Qed.

(** With no similarity below zero, the documents of non-zero similarity are
    the first [x] of the ranking, whatever the sort. *)
Lemma sorts_positives_first (cosine_sim : list A) :
  (forall i, num_leb num_zero (np.item cosine_sim i) = true) ->
  filter (fun i => nonzero (np.item cosine_sim i)) (rev (argsort cosine_sim))
  = firstn (np.count_nonzero cosine_sim) (rev (argsort cosine_sim)).
Proof.
  intros Hpos.
  rewrite (sorted_filter_prefix
             (R := fun i j => np.ascends cosine_sim j i)
             (fun i => nonzero (np.item cosine_sim i))
             (sorts_ranking cosine_sim)).
  - f_equal.
    assert (Hp : Permutation (rev (argsort cosine_sim))
                   (seq 0 (List.length cosine_sim))).
    { eapply perm_trans; [apply Permutation_sym, Permutation_rev|].
      apply argsort_kind. }
    rewrite (filter_length_perm _ Hp).
    apply (filter_nth_seq nonzero num_zero).
  - intros i j Hji Hj. unfold np.ascends in Hji. unfold nonzero, num_eqb in *.
    apply negb_true_iff, andb_false_iff. apply negb_true_iff in Hj.
    left. destruct (num_leb (np.item cosine_sim i) num_zero) eqn:E;
      [|reflexivity].
    rewrite (num_leb_trans _ _ _ Hji E), (Hpos j) in Hj. discriminate.
Qed.


End AnyKind.

(** *** The ranking and the query on rationals *)

Local Open Scope Q_scope.
Local Open Scope string_scope.

(** C8 as the spec states it fails: with three features and [top_n = 5] the
    term of weight zero is returned too, and the two terms of equal weight come
    with the larger vocabulary index first. *)
Lemma top_tfidf_feats_keeps_zero_terms :
  Ranker.top_tfidf_feats [1#2; 1#2; 0] ["aa"; "bb"; "cc"] 5
    = Ok [("bb", 1#2); ("aa", 1#2); ("cc", 0)]
  /\ Ranker.top_tfidf_feats [1#2; 1#2; 0] ["aa"; "bb"; "cc"] 5
    <> Ok [("aa", 1#2); ("bb", 1#2)].
Proof.
  split; [vm_compute; reflexivity | vm_compute; discriminate].
Qed.

(** The ranking theorem on the same row with [top_n = 2], for [np.argsort]. *)
Lemma top_tfidf_feats_ranking_witness :
  List.length ["aa"; "bb"; "cc"] = List.length [1#2; 1#2; 0]
  /\ Ranker.top_tfidf_feats [1#2; 1#2; 0] ["aa"; "bb"; "cc"] 2
     = Ok (map (fun i => (nth i ["aa"; "bb"; "cc"] "", np.item [1#2; 1#2; 0] i))
               (Ranker.topn_ids [1#2; 1#2; 0] 2)).
Proof.
  split; [reflexivity|].
  apply (@top_tfidf_feats_ranking Q _ np.argsort argsort_sorts
           [1#2; 1#2; 0] ["aa"; "bb"; "cc"] 2).
  reflexivity.
Defined.



Local Close Scope string_scope.
Local Close Scope Q_scope.

(** ** Top terms of a group *)

Section GroupFacts.

Context {A : Type} {N : Number A} {O : NumberOrder A}.

Lemma mean_axis0_length (ncols : nat) (D : list (list A)) :
  List.length (np.mean_axis0 ncols D) = ncols.
Proof. unfold np.mean_axis0. rewrite length_map, length_seq. reflexivity. Qed.

(** C7, as the code has it: [if grp_ids:] is false for an empty list as it is
    for [None], so an empty group is ranked like no group at all, over every
    document of the matrix; with one feature name per column the call does not
    fail and returns [min(top_n, ncols)] terms. *)
Theorem top_mean_feats_empty_group (X : matrix A) (features : list string)
    (min_tfidf : A) (top_n : nat) :
  List.length features = ncols X ->
  Ranker.top_mean_feats X features (Some []) min_tfidf top_n
    = Ranker.top_mean_feats X features None min_tfidf top_n
  /\ exists top,
       Ranker.top_mean_feats X features (Some []) min_tfidf top_n = Ok top
       /\ List.length top = Nat.min top_n (ncols X).
Proof.
  intros Hlen. split; [reflexivity|].
  unfold Ranker.top_mean_feats; simpl.
  set (means := np.mean_axis0 (ncols X) (Ranker.denoise min_tfidf (rows X))).
  assert (Hm : List.length features = List.length means).
  { unfold means. rewrite mean_axis0_length. exact Hlen. }
  eexists. split; [apply top_tfidf_feats_ok, Hm|].
  rewrite length_map, topn_ids_length. unfold means.
  rewrite mean_axis0_length. reflexivity.
Qed.

End GroupFacts.

Local Open Scope Q_scope.
Local Open Scope string_scope.

(** C7 as the spec states it fails: for the empty group the result is not
    empty, it is the ranking over both documents of the matrix. *)
Lemma top_mean_feats_empty_group_not_empty :
  Ranker.top_mean_feats {| rows := [[1#2; 0]; [0; 1#2]]; ncols := 2 |}
    ["aa"; "bb"] (Some []) (1#10) 25
  = Ok [("bb", 1#4); ("aa", 1#4)]
  /\ Ranker.top_mean_feats {| rows := [[1#2; 0]; [0; 1#2]]; ncols := 2 |}
       ["aa"; "bb"] (Some []) (1#10) 25
     <> Ok [].
Proof. split; vm_compute; [reflexivity | discriminate]. Qed.

(** The group theorem on the same matrix. *)
Lemma top_mean_feats_empty_group_witness :
  List.length ["aa"; "bb"] = 2%nat
  /\ Ranker.top_mean_feats {| rows := [[1#2; 0]; [0; 1#2]]; ncols := 2 |}
       ["aa"; "bb"] (Some []) (1#10) 25
     = Ranker.top_mean_feats {| rows := [[1#2; 0]; [0; 1#2]]; ncols := 2 |}
       ["aa"; "bb"] None (1#10) 25.
Proof.
  split; [reflexivity|].
  apply (top_mean_feats_empty_group
           {| rows := [[1#2; 0]; [0; 1#2]]; ncols := 2 |} ["aa"; "bb"]
           (1#10) 25).
  reflexivity.
Defined.

Local Close Scope string_scope.
Local Close Scope Q_scope.

(** ** k-means *)

Lemma nodup_map_length {B C : Type}
    (decB : forall x y : B, {x = y} + {x <> y})
    (decC : forall x y : C, {x = y} + {x <> y}) (f : B -> C) (l : list B) :
  List.length (nodup decC (map f l)) <= List.length (nodup decB l).
Proof.
  induction l as [|x l IH]; simpl; [lia|].
  destruct (in_dec decB x l) as [Hin|Hnin].
  - destruct (in_dec decC (f x) (map f l)) as [_|Hn]; [exact IH|].
    exfalso. apply Hn, in_map, Hin.
  - destruct (in_dec decC (f x) (map f l)); simpl; lia.
Qed.

Section KMeansFacts.

Context {A : Type} {N : Number A}.

Variable RandomState : Type.
Variable RandomState_of_seed : nat -> RandomState.
Variable kmeans_centers :
  RandomState -> nat -> list (list A) -> list (list A) * RandomState.

Local Abbreviation cluster :=
  (KMeans.cluster RandomState_of_seed kmeans_centers).

Lemma argmin_from_bound (l : list A) (best_i : nat) (best : A) (i : nat) :
  best_i < i -> KMeans.argmin_from best_i best i l < i + List.length l.
Proof.
  revert best_i best i. induction l as [|d l IH]; intros best_i best i Hi; simpl.
  - lia.
  - destruct (num_ltb d best).
    + specialize (IH i d (S i)). lia.
    + specialize (IH best_i best (S i)). lia.
Qed.

Lemma nearest_bound (centers : list (list A)) (x : list A) :
  centers <> [] -> KMeans.nearest centers x < List.length centers.
Proof.
  unfold KMeans.nearest. destruct centers as [|c centers]; [congruence|].
  intros _. simpl.
  pose proof (@argmin_from_bound (map (KMeans.sqdist x) centers) 0
                (KMeans.sqdist x c) 1) as H.
  rewrite length_map in H. apply H. lia.
Qed.

(** The cell's result, spelled out. *)
Lemma cluster_unfold (global : RandomState) (X : list (list A)) (k seed : nat) :
  cluster global X k seed =
  if (k =? 0) || (List.length X <? k) then (Raise ValueError, global)
  else
    (Ok (map (KMeans.nearest
                (fst (kmeans_centers (RandomState_of_seed seed) k X))) X),
     global).
Proof.
  unfold KMeans.cluster, KMeans.fit.
  destruct ((k =? 0) || (List.length X <? k)); [reflexivity|].
  destruct (kmeans_centers (RandomState_of_seed seed) k X). reflexivity.
Qed.

(** C5, as the code has it: the clustering cell has no check of how many
    distinct vectors there are.  It raises when [k] exceeds the number of
    rows, and the exception is [ValueError]; with at least [k] rows
    it returns one label per row however few distinct rows there are, and the
    labels take at most as many values as there are distinct rows, so with
    fewer than [k] distinct rows some cluster stays empty. *)
Theorem cluster_has_no_diversity_check (global : RandomState)
    (X : list (list A)) (k seed : nat)
    (row_eq_dec : forall u v : list A, {u = v} + {u <> v}) :
  (List.length X < k -> fst (cluster global X k seed) = Raise ValueError)
  /\ (1 <= k -> k <= List.length X ->
      exists labels,
        fst (cluster global X k seed) = Ok labels
        /\ List.length labels = List.length X
        /\ List.length (nodup Nat.eq_dec labels)
           <= List.length (nodup row_eq_dec X)).
Proof.
  rewrite cluster_unfold. split.
  - intros Hk.
    destruct (Nat.eqb_spec k 0); [reflexivity|].
    destruct (Nat.ltb_spec (List.length X) k); [reflexivity | lia].
  - intros H1 H2.
    destruct (Nat.eqb_spec k 0); [lia|].
    destruct (Nat.ltb_spec (List.length X) k); [lia|]. simpl.
    eexists. split; [reflexivity|]. split.
    + apply length_map.
    + apply nodup_map_length.
Qed.

Hypothesis kmeans_centers_count : forall rs k X,
  1 <= k -> k <= List.length X ->
  List.length (fst (kmeans_centers rs k X)) = k.

(** C6: with [k] and the seed fixed, the clustering cell returns the same
    result whatever the state of the global random generator, and leaves that
    state as it was, so that two runs on the same matrix give the same
    assignment; an assignment has one label per document, each in [[0, k)];
    and for [1 <= k <= n] the cell does return an assignment. *)
Theorem cluster_deterministic (X : list (list A)) (k seed : nat) :
  (forall g g', fst (cluster g X k seed) = fst (cluster g' X k seed))
  /\ (forall g, snd (cluster g X k seed) = g)
  /\ (forall g labels, fst (cluster g X k seed) = Ok labels ->
      List.length labels = List.length X /\ Forall (fun c => c < k) labels)
  /\ (1 <= k -> k <= List.length X ->
      exists labels, forall g, cluster g X k seed = (Ok labels, g)).
Proof.
  refine (conj _ (conj _ (conj _ _))).
  - intros g g'. rewrite !cluster_unfold.
    destruct ((k =? 0) || (List.length X <? k)); reflexivity.
  - intros g. rewrite cluster_unfold.
    destruct ((k =? 0) || (List.length X <? k)); reflexivity.
  - intros g labels. rewrite cluster_unfold.
    destruct (Nat.eqb_spec k 0) as [|Hk0]; [discriminate|].
    destruct (Nat.ltb_spec (List.length X) k) as [|Hkn]; [discriminate|].
    simpl. intros [= <-]. split; [apply length_map|].
    rewrite Forall_map, Forall_forall. intros x _.
    pose proof (kmeans_centers_count (RandomState_of_seed seed) X
                  (ltac:(lia) : 1 <= k) Hkn) as Hc.
    rewrite <- Hc at 2. apply nearest_bound.
    intros E. rewrite E in Hc. simpl in Hc. lia.
  - intros H1 H2. eexists. intros g. rewrite cluster_unfold.
    destruct (Nat.eqb_spec k 0); [lia|].
    destruct (Nat.ltb_spec (List.length X) k); [lia|]. reflexivity.
Qed.

End KMeansFacts.

Local Open Scope Q_scope.

Lemma Q_eq_dec (x y : Q) : {x = y} + {x <> y}.
Proof. decide equality; [apply Pos.eq_dec | apply Z.eq_dec]. Qed.

(** C5 as the spec states it fails: five rows, two distinct vectors, [k = 5],
    seed 1.  The cell returns an assignment, with clusters 1, 2 and 4 left
    empty. *)
Lemma cluster_two_distinct_vectors :
  KMeans.cluster (fun seed : nat => seed) KMeans.first_samples 7%nat
    [[1; 0]; [1; 0]; [1; 0]; [0; 1]; [0; 1]] 5 1
  = (Ok [0; 0; 0; 3; 3]%nat, 7%nat).
Proof. vm_compute. reflexivity. Qed.

(** The same rows through the theorem. *)
Lemma cluster_has_no_diversity_check_witness :
  le 1 5 /\ le 5 (List.length [[1; 0]; [1; 0]; [1; 0]; [0; 1]; [0; 1]])
  /\ exists labels,
       fst (KMeans.cluster (fun seed : nat => seed) KMeans.first_samples 7%nat
              [[1; 0]; [1; 0]; [1; 0]; [0; 1]; [0; 1]] 5 1) = Ok labels
       /\ List.length labels = 5%nat
       /\ le (List.length (nodup Nat.eq_dec labels))
             (List.length (nodup (list_eq_dec Q_eq_dec)
                             [[1; 0]; [1; 0]; [1; 0]; [0; 1]; [0; 1]])).
Proof.
  split; [lia | split; [simpl; lia |]].
  apply (proj2 (cluster_has_no_diversity_check
                  (fun seed : nat => seed) KMeans.first_samples 7%nat
                  [[1; 0]; [1; 0]; [1; 0]; [0; 1]; [0; 1]] 5 1
                  (list_eq_dec Q_eq_dec))); simpl; lia.
Defined.

(** The example instance returns [k] centres. *)
Lemma first_samples_count (rs k : nat) (X : list (list Q)) :
  (1 <= k)%nat -> (k <= List.length X)%nat ->
  List.length (fst (KMeans.first_samples rs k X)) = k.
Proof. intros _ H. simpl. apply firstn_length_le, H. Qed.

(** Two states of the global generator, one assignment. *)
Lemma cluster_deterministic_witness :
  fst (KMeans.cluster (fun seed : nat => seed) KMeans.first_samples 4%nat
         [[1; 0]; [0; 1]; [1; 1]] 2 0)
  = fst (KMeans.cluster (fun seed : nat => seed) KMeans.first_samples 9%nat
           [[1; 0]; [0; 1]; [1; 1]] 2 0).
Proof.
  exact (proj1 (cluster_deterministic (fun seed : nat => seed)
                  KMeans.first_samples first_samples_count
                  [[1; 0]; [0; 1]; [1; 1]] 2 0) 4%nat 9%nat).
Defined.

Local Close Scope Q_scope.

(** ** Cleaning the bodies *)

Import Cleaning.

Section CleaningFacts.

Import PyRe.

Lemma apply_sub_strs (r : pattern) (repl : string) (l : list string) :
  apply_sub r repl (map Some l) = Ok (map Some (map (sub r repl) l)).
Proof.
  unfold apply_sub.
  rewrite (mapM_total (re_sub r repl) (option_map (sub r repl))).
  - rewrite !map_map. reflexivity.
  - rewrite Forall_map, Forall_forall. intros; reflexivity.
Qed.

Lemma clean_column_strs (l : list string) :
  clean_column (map Some l) = Ok (map Some (map clean_body l)).
Proof.
  unfold clean_column, str_split_0.
  replace (map (option_map (split_head reply_delimiter)) (map Some l))
    with (map Some (map (split_head reply_delimiter) l))
    by (rewrite !map_map; reflexivity).
  repeat (rewrite apply_sub_strs; simpl).
  rewrite !map_map. reflexivity.
Qed.

Lemma strs_of_column (col : list (option string)) :
  Forall (fun b => b <> None) col ->
  exists l, col = map Some l.
Proof.
  induction 1 as [|b col Hb _ [l ->]].
  - exists []. reflexivity.
  - destruct b as [s|]; [|congruence]. exists (s :: l). reflexivity.
Qed.

Lemma read_email_body (message : MailItem) (email : Row) :
  read_email message = Ok email -> body message = Returned (Body email).
Proof.
  unfold read_email.
  destruct (EntryID message), (SenderEmailAddress message),
    (ReceivedTime message), (subject message), (body message),
    (Parent message); simpl; try discriminate.
  intros [= <-]. reflexivity.
Qed.

Lemma read_email_no_body (message : MailItem) :
  body message = ComFails -> exists e, read_email message = Raise e.
Proof.
  unfold read_email. intros ->.
  destruct (EntryID message), (SenderEmailAddress message),
    (ReceivedTime message), (subject message); simpl; eexists; reflexivity.
Qed.

Lemma emaillist_app (l1 l2 : list MailItem) :
  emaillist (l1 ++ l2) = emaillist l1 ++ emaillist l2.
Proof.
  induction l1 as [|m l1 IH]; simpl; [reflexivity|].
  destruct (read_email m); simpl; rewrite IH; reflexivity.
Qed.

Lemma emaillist_bodies (messages : list MailItem) :
  Forall (fun m => body m <> Returned None) messages ->
  Forall (fun r => Body r <> None) (emaillist messages).
Proof.
  induction 1 as [|m messages Hm _ IH]; simpl; [constructor|].
  destruct (read_email m) as [email|] eqn:E; [|exact IH].
  constructor; [|exact IH].
  apply read_email_body in E. intros Hn. rewrite Hn in E. contradiction.
Qed.

Lemma emaillist_In (messages : list MailItem) (m : MailItem) (email : Row) :
  In m messages -> read_email m = Ok email -> In email (emaillist messages).
Proof.
  intros Hin Hm. induction messages as [|m' messages IH]; [contradiction|].
  simpl. destruct Hin as [->|Hin].
  - rewrite Hm. left. reflexivity.
  - destruct (read_email m'); [right|]; apply IH, Hin.
Qed.

Lemma clean_column_None (col : list (option string)) :
  Exists (fun b => b = None) col -> clean_column col = Raise TypeError.
Proof.
  intros Hex. unfold clean_column, apply_sub.
  rewrite (mapM_raises (re_sub re_label " ") (e := TypeError));
    [reflexivity | |].
  - intros [x|] _; [left; eexists; reflexivity | right; reflexivity].
  - unfold str_split_0. apply Exists_exists. apply Exists_exists in Hex.
    destruct Hex as (b & Hb & ->). exists None. split; [|reflexivity].
    apply (in_map (option_map (split_head reply_delimiter)) _ _ Hb).
Qed.

(** C3, as the code has it: nothing in the notebook turns a missing body
    into an empty string.  When every body of the frame is a string, cleaning
    raises nothing and returns, for each row in order, the cleaned body of
    that row.  When the body of some row is [None], [re.sub] raises
    [TypeError] and no body of the column is cleaned; a message all of whose
    properties can be read and whose body is [None] makes such a row. *)
Theorem cleaning_needs_string_bodies (messages : list MailItem) :
  (Forall (fun r => Body r <> None) (pdraw messages) ->
   cleaned_bodies messages
   = Ok (map (fun r => option_map clean_body (Body r)) (pdraw messages)))
  /\ (Exists (fun r => Body r = None) (pdraw messages) ->
      cleaned_bodies messages = Raise TypeError)
  /\ (forall m email,
        In m messages -> read_email m = Ok email ->
        body m = Returned None ->
        cleaned_bodies messages = Raise TypeError).
Proof.
  assert (Hnone : Exists (fun r => Body r = None) (pdraw messages) ->
                  cleaned_bodies messages = Raise TypeError).
  { intros Hex. unfold cleaned_bodies. apply clean_column_None.
    apply Exists_exists. apply Exists_exists in Hex.
    destruct Hex as (r & Hr & Hb). exists (Body r).
    split; [apply in_map, Hr | exact Hb]. }
  refine (conj _ (conj Hnone _)).
  - intros Hb. unfold cleaned_bodies, pdraw in *.
    destruct (strs_of_column (col := map Body (emaillist messages))) as [l Hl].
    { rewrite Forall_map. exact Hb. }
    rewrite Hl, clean_column_strs. f_equal.
    rewrite <- (map_map Body (option_map clean_body)), Hl, !map_map.
    reflexivity.
  - intros m email Hin Hm Hbody. apply Hnone.
    apply Exists_exists. exists email.
    split; [eapply emaillist_In; [exact Hin | exact Hm]|].
    apply read_email_body in Hm. rewrite Hbody in Hm. congruence.
Qed.

End CleaningFacts.

Local Open Scope string_scope.

(** C3 as the spec states it fails: of two messages the second has a body
    that is [None].  Both are read into the frame; cleaning the column raises
    [TypeError], where the spec has the cleaned first body and an empty
    string. *)
Lemma missing_body_raises_TypeError :
  List.length
    (pdraw
       [mail_item "id1" "Hello"%string false;
        {| EntryID := Returned "id2"; SenderEmailAddress := Returned "a";
           ReceivedTime := Returned "d"; subject := Returned "s";
           body := Returned None; Parent := Returned "Inbox";
           Categories := ""; Save_raises := false |}]) = 2
  /\ cleaned_bodies
       [mail_item "id1" "Hello"%string false;
        {| EntryID := Returned "id2"; SenderEmailAddress := Returned "a";
           ReceivedTime := Returned "d"; subject := Returned "s";
           body := Returned None; Parent := Returned "Inbox";
           Categories := ""; Save_raises := false |}]
     = Raise TypeError.
Proof. split; vm_compute; reflexivity. Qed.

(** C2: cleaning is not idempotent.  Of two numbers in a row the second
    survives the first pass, because the space between them is part of the
    first match; the second pass removes it. *)
Theorem clean_body_twice :
  clean_body "a 1 2 b" = "a 2 b"
  /\ clean_body (clean_body "a 1 2 b") = "a b".
Proof. split; vm_compute; reflexivity. Qed.

(** ** Tagging *)

(** C9: nothing catches an exception of [Save()].  Two messages match the
    query; [Save] raises on the first: the loop ends with that exception and
    the second message keeps its empty category. *)
Theorem tag_messages_stops_at_first_failure :
  Tagger.tag_messages
    [mail_item "id1" "budget" true; mail_item "id2" "budget" false]
    [("id1", "bctw"); ("id2", "bctw")]
  = ([mail_item "id1" "budget" true; mail_item "id2" "budget" false],
     Some com_error).
Proof. vm_compute. reflexivity. Qed.

(** The same for any inbox: when [Save()] raises on a message that the
    dictionary matches, the loop ends there; the messages before it are
    tagged, that message and all that follow are as they were. *)
Lemma tag_message_save_raises (message : MailItem) (emaildict : Tagger.dict)
    (id v : string) :
  EntryID message = Returned id -> Save_raises message = true ->
  In (id, v) emaildict ->
  Tagger.tag_message message emaildict = Raise com_error.
Proof.
  intros Hid Hs. induction emaildict as [|[key v'] rest IH]; intros Hin;
    [contradiction|].
  simpl. rewrite Hid. simpl.
  destruct (String.eqb_spec id key) as [->|Hne].
  - unfold Tagger.Save. rewrite Hs. reflexivity.
  - apply IH. destruct Hin as [[= <- _]|Hin]; [contradiction | exact Hin].
Qed.

Lemma tag_messages_raise (before after : list MailItem) (message : MailItem)
    (emaildict : Tagger.dict) (e : exn) :
  snd (Tagger.tag_messages before emaildict) = None ->
  Tagger.tag_message message emaildict = Raise e ->
  Tagger.tag_messages (before ++ message :: after)%list emaildict
  = ((fst (Tagger.tag_messages before emaildict) ++ message :: after)%list,
     Some e).
Proof.
  intros Hb Hm. induction before as [|m before IH]; simpl in *.
  - rewrite Hm. reflexivity.
  - destruct (Tagger.tag_message m emaildict) as [m'|e']; [|discriminate].
    destruct (Tagger.tag_messages before emaildict) as [rest o]; simpl in *.
    rewrite (IH Hb). reflexivity.
Qed.

(** Without a failure both are tagged. *)
Lemma tag_messages_tags_every_match :
  map Categories
    (fst (Tagger.tag_messages
            [mail_item "id1" "budget" false; mail_item "id2" "budget" false]
            [("id1", "bctw"); ("id2", "bctw")]))
  = ["bctw"; "bctw"].
Proof. vm_compute. reflexivity. Qed.

Local Close Scope string_scope.

(** ** TF-IDF weights *)

(** [dots] names every dot product before the arithmetic is decided. *)
Ltac dots :=
  repeat match goal with
         | |- context [Tfidf.dot ?u ?v] =>
             let d := fresh "d" in set (d := Tfidf.dot u v) in *; clearbody d
         | H : context [Tfidf.dot ?u ?v] |- _ =>
             let d := fresh "d" in set (d := Tfidf.dot u v) in *; clearbody d
         end.

Section VectorFacts.

Import Tfidf.
Local Open Scope R_scope.

Lemma dot_cons (a b : R) (u v : list R) :
  dot (a :: u) (b :: v) = a * b + dot u v.
Proof. reflexivity. Qed.

Lemma dot_nil_l (v : list R) : dot [] v = 0.
Proof. reflexivity. Qed.

Lemma dot_nil_r (u : list R) : dot u [] = 0.
Proof. destruct u; reflexivity. Qed.

(** From here on [dot] is used through the three equations above. *)
Opaque Tfidf.dot.

Lemma dot_self_nonneg (u : list R) : 0 <= dot u u.
Proof.
  induction u as [|a u IH]; [rewrite dot_nil_l; lra|].
  rewrite dot_cons. nra.
Qed.

Lemma dot_self_zero (u : list R) : dot u u = 0 -> all_zero u.
Proof.
  induction u as [|a u IH]; intros H; [constructor|].
  rewrite dot_cons in H. pose proof (dot_self_nonneg u).
  constructor; [nra | apply IH; nra].
Qed.

Lemma dot_zero_l (u v : list R) : all_zero u -> dot u v = 0.
Proof.
  intros H. revert v. induction H as [|a u Ha _ IH]; intros [|b v];
    rewrite ?dot_nil_l, ?dot_nil_r; try reflexivity.
  rewrite dot_cons, IH, Ha. lra.
Qed.

Lemma dot_zero_r (u v : list R) : all_zero v -> dot u v = 0.
Proof.
  intros H. revert u. induction H as [|b v Hb _ IH]; intros [|a u];
    rewrite ?dot_nil_l, ?dot_nil_r; try reflexivity.
  rewrite dot_cons, IH, Hb. lra.
Qed.

Lemma dot_nonneg (u v : list R) : nonneg u -> nonneg v -> 0 <= dot u v.
Proof.
  intros Hu. revert v. induction Hu as [|a u Ha _ IH]; intros [|b v] Hv;
    try (rewrite ?dot_nil_l, ?dot_nil_r; lra).
  inversion Hv as [|? ? Hb Hv']; subst. rewrite dot_cons.
  specialize (IH v Hv'). nra.
Qed.

(** The step behind Cauchy-Schwarz for unit vectors: [(a - b)^2 >= 0],
    summed. *)
Lemma dot_le_squares (u v : list R) : 2 * dot u v <= dot u u + dot v v.
Proof.
  revert v. induction u as [|a u IH]; intros [|b v].
  - rewrite dot_nil_l. lra.
  - pose proof (dot_self_nonneg (b :: v)). rewrite !dot_nil_l. dots. lra.
  - pose proof (dot_self_nonneg (a :: u)). rewrite dot_nil_r, dot_nil_l.
    dots. lra.
  - rewrite !dot_cons. specialize (IH v).
    pose proof (Rle_0_sqr (a - b)) as Hs. unfold Rsqr in Hs. dots. lra.
Qed.

Lemma dot_scale (c : R) (u : list R) :
  c <> 0 ->
  dot (map (fun w => w / c) u) (map (fun w => w / c) u) = dot u u / (c * c).
Proof.
  intros Hc. induction u as [|a u IH]; simpl.
  - rewrite dot_nil_l. field. exact Hc.
  - rewrite !dot_cons, IH. field. exact Hc.
Qed.

Lemma norm_sqr (u : list R) : norm u * norm u = dot u u.
Proof. apply sqrt_sqrt, dot_self_nonneg. Qed.

Lemma norm_nonneg (u : list R) : 0 <= norm u.
Proof. apply sqrt_pos. Qed.

Lemma norm_zero (u : list R) : norm u = 0 -> all_zero u.
Proof.
  intros H. apply dot_self_zero. rewrite <- norm_sqr, H. lra.
Qed.

Lemma all_zero_norm (u : list R) : all_zero u -> norm u = 0.
Proof.
  intros H. unfold norm. rewrite (dot_zero_l u H). apply sqrt_0.
Qed.

Lemma normalize_unit (u : list R) : norm u <> 0 -> norm (normalize u) = 1.
Proof.
  intros Hn. unfold normalize.
  destruct (Req_dec_T (norm u) 0) as [E|_]; [contradiction|].
  unfold norm at 1. rewrite (dot_scale u Hn), norm_sqr.
  replace (dot u u / dot u u) with 1; [apply sqrt_1|].
  field. rewrite <- norm_sqr. nra.
Qed.

Lemma normalize_zero (u : list R) : norm u = 0 -> all_zero (normalize u).
Proof.
  intros Hn. unfold normalize.
  destruct (Req_dec_T (norm u) 0) as [_|E]; [|contradiction].
  apply norm_zero in Hn. unfold all_zero in *.
  rewrite Forall_map. eapply Forall_impl; [|exact Hn].
  intros w ->. lra.
Qed.

Lemma normalize_unit_or_zero (u : list R) : unit_or_zero (normalize u).
Proof.
  destruct (Req_dec_T (norm u) 0) as [E|E].
  - right. apply normalize_zero, E.
  - left. apply normalize_unit, E.
Qed.

Lemma normalize_nonneg (u : list R) : nonneg u -> nonneg (normalize u).
Proof.
  intros H. unfold normalize, nonneg in *. rewrite Forall_map.
  eapply Forall_impl; [|exact H]. intros w Hw. simpl.
  pose proof (norm_nonneg u).
  destruct (Req_dec_T (norm u) 0) as [_|E].
  - lra.
  - apply Rmult_le_pos; [exact Hw|]. apply Rlt_le, Rinv_0_lt_compat. lra.
Qed.

Lemma unit_or_zero_sqr (u : list R) : unit_or_zero u -> dot u u <= 1.
Proof.
  intros [H|H].
  - rewrite <- norm_sqr, H. lra.
  - rewrite (dot_zero_l u H). lra.
Qed.

(** The score of two normalised rows with no negative entry. *)
Lemma score_bounds (q row : list R) :
  unit_or_zero q -> unit_or_zero row -> nonneg q -> nonneg row ->
  0 <= dot q row <= 1.
Proof.
  intros Hq Hr Pq Pr. split; [apply dot_nonneg; assumption|].
  pose proof (dot_le_squares q row).
  pose proof (unit_or_zero_sqr Hq). pose proof (unit_or_zero_sqr Hr). lra.
Qed.

Lemma score_is_cosine (q row : list R) :
  norm q = 1 -> norm row = 1 -> dot q row = cosine_similarity_spec q row.
Proof.
  intros Hq Hr. unfold cosine_similarity_spec. rewrite Hq, Hr. field.
Qed.

(** *** The idf *)

Lemma idf_decreasing (n df1 df2 : nat) :
  (df1 < df2)%nat -> idf n df2 < idf n df1.
Proof.
  intros H. unfold idf.
  assert (H1 : 0 < 1 + INR n) by (pose proof (pos_INR n); lra).
  assert (H2 : 0 < 1 + INR df1) by (pose proof (pos_INR df1); lra).
  assert (H3 : 1 + INR df1 < 1 + INR df2) by (apply lt_INR in H; lra).
  apply Rplus_lt_compat_r, ln_increasing.
  - apply Rdiv_lt_0_compat; lra.
  - unfold Rdiv. apply Rmult_lt_compat_l; [exact H1|].
    apply Rinv_lt_contravar; [nra | exact H3].
Qed.

Lemma idf_ge_1 (n d : nat) : (d <= n)%nat -> 1 <= idf n d.
Proof.
  intros H. unfold idf.
  assert (H2 : 0 < 1 + INR d) by (pose proof (pos_INR d); lra).
  assert (H3 : 1 + INR d <= 1 + INR n) by (apply le_INR in H; lra).
  assert (H1 : 1 <= (1 + INR n) / (1 + INR d)).
  { apply (Rmult_le_reg_r (1 + INR d)); [exact H2|].
    unfold Rdiv. rewrite Rmult_assoc, Rinv_l by lra. lra. }
  destruct H1 as [H1|H1].
  - apply ln_increasing in H1; [|lra]. rewrite ln_1 in H1. lra.
  - rewrite <- H1, ln_1. lra.
Qed.

End VectorFacts.

(** *** The fitted vectorizer *)

Lemma combine_map_r {B C : Type} (f : B -> C) (l : list B) :
  combine l (map f l) = map (fun x => (x, f x)) l.
Proof. induction l as [|x l IH]; simpl; [|rewrite IH]; reflexivity. Qed.

Lemma Forall2_map_r {B C : Type} (P : B -> C -> Prop) (f : B -> C)
    (l : list B) :
  (forall x, In x l -> P x (f x)) -> Forall2 P l (map f l).
Proof.
  induction l as [|x l IH]; intros H; simpl; constructor.
  - apply H. left. reflexivity.
  - apply IH. intros y Hy. apply H. right. exact Hy.
Qed.

Lemma insert_term_in (t x : string) (l : list string) :
  In x (Tfidf.insert_term t l) <-> x = t \/ In x l.
Proof.
  induction l as [|u l IH]; simpl.
  - intuition congruence.
  - destruct (String.leb t u); simpl; rewrite ?IH; intuition congruence.
Qed.

Lemma vocabulary_in (t : string) (docs : list (list string)) :
  In t (Tfidf.vocabulary docs) <-> exists d, In d docs /\ In t d.
Proof.
  unfold Tfidf.vocabulary.
  assert (H : forall l, In t (fold_right Tfidf.insert_term [] l) <-> In t l).
  { induction l as [|u l IH]; simpl; [tauto|].
    rewrite insert_term_in, IH. intuition congruence. }
  rewrite H, nodup_In, in_concat. firstorder.
Qed.

Section FittedFacts.

Import Tfidf.
Local Open Scope R_scope.

Variable ENGLISH_STOP_WORDS : list string.
Variable tokenize : string -> list string.

Local Abbreviation analyze := (Tfidf.analyze ENGLISH_STOP_WORDS tokenize).
Local Abbreviation fit := (Tfidf.fit ENGLISH_STOP_WORDS tokenize).
Local Abbreviation transform := (Tfidf.transform ENGLISH_STOP_WORDS tokenize).
Local Abbreviation fit_transform :=
  (Tfidf.fit_transform ENGLISH_STOP_WORDS tokenize).
Local Abbreviation cosine_sim :=
  (Tfidf.cosine_sim ENGLISH_STOP_WORDS tokenize).
Local Abbreviation raw_weights :=
  (Tfidf.raw_weights ENGLISH_STOP_WORDS tokenize).

Lemma fit_transform_inv (raw_documents : list string) (v : TfidfVectorizer)
    (x_dense : list (list R)) :
  fit_transform raw_documents = Ok (v, x_dense) ->
  vocabulary_ v = vocabulary (map analyze raw_documents)
  /\ idf_ v = map (fun t => idf (List.length (map analyze raw_documents))
                              (df t (map analyze raw_documents)))
                  (vocabulary_ v)
  /\ x_dense = transform v raw_documents.
Proof.
  unfold Tfidf.fit_transform, Tfidf.fit.
  destruct (vocabulary (map analyze raw_documents)) as [|t vocab] eqn:E;
    simpl; [discriminate|].
  intros [= <- <-]. simpl. auto.
Qed.

Lemma tfidf_row_fitted (raw_documents : list string) (v : TfidfVectorizer)
    (x_dense : list (list R)) (d : list string) :
  fit_transform raw_documents = Ok (v, x_dense) ->
  tfidf_row v d = raw_weights raw_documents (vocabulary_ v) d.
Proof.
  intros H. destruct (fit_transform_inv _ H) as (_ & Hidf & _).
  unfold tfidf_row, Tfidf.raw_weights. rewrite Hidf at 1.
  rewrite combine_map_r, map_map. reflexivity.
Qed.

Lemma df_le (t : string) (docs : list (list string)) :
  (df t docs <= List.length docs)%nat.
Proof. apply filter_length_le. Qed.

Lemma raw_weights_nonneg (raw_documents vocab d : list string) :
  nonneg (raw_weights raw_documents vocab d).
Proof.
  unfold Tfidf.raw_weights, nonneg. rewrite Forall_map, Forall_forall. intros t _.
  pose proof (idf_ge_1 (df_le t (map analyze raw_documents))).
  pose proof (pos_INR (tf t d)). nra.
Qed.

Lemma raw_weights_empty (raw_documents vocab : list string) :
  all_zero (raw_weights raw_documents vocab []).
Proof.
  unfold Tfidf.raw_weights, all_zero. rewrite Forall_map, Forall_forall.
  intros t _. simpl. lra.
Qed.

Lemma raw_weights_positive (raw_documents vocab d : list string) (t : string) :
  In t vocab -> In t d -> norm (raw_weights raw_documents vocab d) <> 0.
Proof.
  intros Hv Hd Hn. apply norm_zero in Hn. unfold all_zero, Tfidf.raw_weights in Hn.
  rewrite Forall_map, Forall_forall in Hn. specialize (Hn t Hv).
  pose proof (idf_ge_1 (df_le t (map analyze raw_documents))).
  apply (count_occ_In string_dec) in Hd. fold (tf t d) in Hd.
  apply lt_INR in Hd. simpl in Hd. nra.
Qed.

(** C4, as the code has it: the vectorizer keeps [norm='l2'], so the weight
    of term [t] in document [d] is the term frequency times
    [idf(t) = log((1 + N) / (1 + df(t))) + 1] divided by the Euclidean norm of
    the document's row of such products (by 1 when that norm is 0); and idf is
    strictly decreasing in the document frequency. *)
Theorem weight_is_normalized_tf_idf (raw_documents : list string)
    (v : TfidfVectorizer) (x_dense : list (list R)) :
  fit_transform raw_documents = Ok (v, x_dense) ->
  let docs := map analyze raw_documents in
  let N := List.length docs in
  Forall2
    (fun doc row =>
       let products :=
         map (fun t => INR (tf t (analyze doc)) * idf N (df t docs))
             (vocabulary_ v) in
       let scale := if Req_dec_T (norm products) 0 then 1 else norm products in
       row = map (fun t => INR (tf t (analyze doc)) * idf N (df t docs) / scale)
                 (vocabulary_ v))
    raw_documents x_dense
  /\ (forall df1 df2 : nat, (df1 < df2)%nat -> idf N df2 < idf N df1).
Proof.
  intros H docs N. split; [|intros df1 df2; apply idf_decreasing].
  destruct (fit_transform_inv _ H) as (_ & _ & ->).
  unfold Tfidf.transform. apply Forall2_map_r. intros doc _. simpl.
  rewrite (tfidf_row_fitted _ _ H). unfold Tfidf.raw_weights, normalize.
  rewrite map_map. reflexivity.
Qed.

Lemma cosine_sim_dots (v : TfidfVectorizer) (x_dense : list (list R))
    (query : string) :
  cosine_sim v x_dense query
  = map (dot (normalize (tfidf_row v (analyze query)))) x_dense.
Proof.
  unfold Tfidf.cosine_sim, flatten, linear_kernel. simpl. apply app_nil_r.
Qed.

Lemma fitted_scores_bounded (raw_documents : list string) (query : string)
    (v : TfidfVectorizer) (x_dense : list (list R)) :
  fit_transform raw_documents = Ok (v, x_dense) ->
  Forall (fun row =>
            0 <= dot (normalize (tfidf_row v (analyze query))) row <= 1)
         x_dense.
Proof.
  intros H. destruct (fit_transform_inv _ H) as (_ & _ & ->).
  unfold Tfidf.transform. rewrite Forall_map, Forall_forall. intros doc _.
  apply score_bounds; try apply normalize_unit_or_zero;
    apply normalize_nonneg; rewrite (tfidf_row_fitted _ _ H);
    apply raw_weights_nonneg.
Qed.

End FittedFacts.

(** *** A corpus of one document *)

Section WeightExamples.

Import Tfidf.
Local Open Scope string_scope.
Local Open Scope R_scope.

(** A term that every document contains has idf 1. *)
Lemma idf_all_documents (n : nat) : idf n n = 1.
Proof.
  unfold idf. replace ((1 + INR n) / (1 + INR n)) with 1.
  - rewrite ln_1. ring.
  - field. pose proof (pos_INR n). lra.
Qed.

Lemma normalize_singleton (w : R) : 0 < w -> normalize [w] = [1].
Proof.
  intros Hw.
  assert (Hn : norm [w] = w).
  { unfold norm. rewrite dot_cons, dot_nil_l, Rplus_0_r.
    apply sqrt_square. lra. }
  unfold normalize. rewrite Hn.
  destruct (Req_dec_T w 0) as [E|_]; [lra|].
  simpl. f_equal. field. lra.
Qed.

(** The fit of the corpus [["soil soil"]]: one feature, one row, weight 1. *)
Lemma fit_soil_soil :
  exists v x_dense,
    fit_transform [] words ["soil soil"] = Ok (v, x_dense)
    /\ x_dense = [[1]]
    /\ INR (tf "soil" (analyze [] words "soil soil"))
       * idf 1 (df "soil" [analyze [] words "soil soil"]) = 2.
Proof.
  assert (Hvoc : vocabulary (map (analyze [] words) ["soil soil"]) = ["soil"])
    by (vm_compute; reflexivity).
  assert (Han : analyze [] words "soil soil" = ["soil"; "soil"])
    by (vm_compute; reflexivity).
  assert (Htf : tf "soil" ["soil"; "soil"] = 2%nat) by (vm_compute; reflexivity).
  assert (Hdf : df "soil" [["soil"; "soil"]] = 1%nat)
    by (vm_compute; reflexivity).
  unfold fit_transform, fit. rewrite Hvoc. cbn [bind].
  eexists. eexists. split; [reflexivity|].
  unfold transform. cbn [map List.length]. rewrite Han.
  unfold tfidf_row. cbn [vocabulary_ idf_ combine map fst snd List.length].
  rewrite Htf, Hdf, (idf_all_documents 1).
  replace (INR 2) with 2 by (simpl; lra).
  split; [|lra].
  rewrite normalize_singleton by lra. reflexivity.
Qed.

(** C4 as the spec states it fails: in the corpus of the one document
    ["soil soil"] the term frequency of "soil" is 2 and its idf is 1, but its
    weight in the matrix is 1, not 2. *)
Lemma weight_is_not_tf_times_idf :
  exists v x_dense,
    fit_transform [] words ["soil soil"] = Ok (v, x_dense)
    /\ nth 0 (nth 0 x_dense []) 0 = 1
    /\ INR (tf "soil" (analyze [] words "soil soil"))
       * idf 1 (df "soil" [analyze [] words "soil soil"]) = 2.
Proof.
  destruct fit_soil_soil as (v & x_dense & H & -> & Hw).
  exists v, [[1]]. repeat split; assumption.
Qed.

(** The weight theorem on the same corpus. *)
Lemma weight_is_normalized_tf_idf_witness :
  exists v x_dense,
    fit_transform [] words ["soil soil"] = Ok (v, x_dense)
    /\ forall df1 df2 : nat,
         (df1 < df2)%nat ->
         idf (List.length (map (analyze [] words) ["soil soil"])) df2
         < idf (List.length (map (analyze [] words) ["soil soil"])) df1.
Proof.
  destruct fit_soil_soil as (v & x_dense & H & _).
  exists v, x_dense. split; [exact H|].
  exact (proj2 (weight_is_normalized_tf_idf [] words ["soil soil"] H)).
Defined.

End WeightExamples.

(** ** The vectors and the scores in float64

    Rounding keeps the sign: a sum, a product, a quotient or a square root of
    floats whose sign bit is clear has its sign bit clear, or is NaN. *)

Section Float64Facts.

Import Floats.
Import Float64.
Local Open Scope float_scope.

Local Abbreviation nn w := (sign_clear (Prim2SF w)).

Lemma round_aux_sign (m e : Z) (l : location) :
  sign_clear (binary_round_aux prec emax false m e l).
Proof.
  unfold binary_round_aux.
  destruct (shr_fexp prec emax m e l) as [mrs' e'].
  destruct (shr_fexp prec emax _ e' loc_Exact) as [mrs'' e''].
  destruct (shr_m mrs''); [reflexivity | | exact I].
  destruct (e'' <=? emax - prec)%Z; reflexivity.
Qed.

Lemma round_sign (m : positive) (e : Z) :
  sign_clear (binary_round prec emax false m e).
Proof.
  unfold binary_round. destruct (shl_align m e _) as [mz ez].
  apply round_aux_sign.
Qed.

Lemma SFadd_sign (x y : spec_float) :
  sign_clear x -> sign_clear y -> sign_clear (SF64add x y).
Proof.
  unfold SF64add, SFadd.
  destruct x as [sx|sx| |sx mx ex], y as [sy|sy| |sy my ey];
    cbn [sign_clear]; intros Hx Hy; subst; try exact I; try reflexivity.
  cbn [cond_Zopp Z.add binary_normalize]. apply round_sign.
Qed.

Lemma SFmul_sign (x y : spec_float) :
  sign_clear x -> sign_clear y -> sign_clear (SF64mul x y).
Proof.
  unfold SF64mul, SFmul.
  destruct x as [sx|sx| |sx mx ex], y as [sy|sy| |sy my ey];
    cbn [sign_clear]; intros Hx Hy; subst; try exact I; try reflexivity.
  cbn [xorb]. apply round_aux_sign.
Qed.

Lemma SFdiv_sign (x y : spec_float) :
  sign_clear x -> sign_clear y -> sign_clear (SF64div x y).
Proof.
  unfold SF64div, SFdiv.
  destruct x as [sx|sx| |sx mx ex], y as [sy|sy| |sy my ey];
    cbn [sign_clear]; intros Hx Hy; subst; try exact I; try reflexivity.
  destruct (SFdiv_core_binary prec emax (Z.pos mx) ex (Z.pos my) ey)
    as [[mz ez] lz].
  cbn [xorb]. apply round_aux_sign.
Qed.

Lemma SFsqrt_sign (x : spec_float) :
  sign_clear x -> sign_clear (SF64sqrt x).
Proof.
  unfold SF64sqrt, SFsqrt.
  destruct x as [sx|sx| |sx mx ex]; cbn [sign_clear]; intros Hx; subst;
    try exact I; try reflexivity.
  destruct (SFsqrt_core_binary prec emax (Z.pos mx) ex) as [[mz ez] lz].
  apply round_aux_sign.
Qed.

Lemma nn_add (x y : float) : nn x -> nn y -> nn (x + y).
Proof. rewrite add_spec. apply SFadd_sign. Qed.

Lemma nn_mul (x y : float) : nn x -> nn y -> nn (x * y).
Proof. rewrite mul_spec. apply SFmul_sign. Qed.

Lemma nn_div (x y : float) : nn x -> nn y -> nn (x / y).
Proof. rewrite div_spec. apply SFdiv_sign. Qed.

Lemma nn_sqrt (x : float) : nn x -> nn (sqrt x).
Proof. rewrite sqrt_spec. apply SFsqrt_sign. Qed.

Lemma nn_zero : nn 0.
Proof. vm_compute. reflexivity. Qed.

(** Such a float is not below 0. *)
Lemma nn_not_negative (w : float) : nn w -> (w <? 0) = false.
Proof.
  rewrite ltb_spec.
  replace (Prim2SF 0) with (S754_zero false) by (vm_compute; reflexivity).
  destruct (Prim2SF w) as [s|s| |s m e]; cbn [sign_clear]; intros H; subst;
    reflexivity.
Qed.

Lemma finite_nonneg_nn (w : float) : finite_nonneg w = true -> nn w.
Proof.
  unfold finite_nonneg. rewrite classify_spec.
  unfold SF64classify, SFclassify.
  destruct (Prim2SF w) as [[|]|[|]| |[|] m e]; cbn [sign_clear];
    try discriminate; try reflexivity.
  destruct (Z.pos (digits2_pos m) =? prec)%Z; discriminate.
Qed.

Lemma nn_of_count (n : nat) : nn (of_count n).
Proof.
  unfold of_count. rewrite of_uint63_spec.
  pose proof (Uint63.to_Z_bounded (Uint63.of_Z (Z.of_nat n))) as [H _].
  destruct (Uint63.to_Z (Uint63.of_Z (Z.of_nat n))) as [|p|p];
    cbn [binary_normalize]; [reflexivity | apply round_sign | lia].
Qed.

Lemma nn_weight (count : nat) (idf : float) :
  finite_nonneg idf = true -> nn (weight count idf).
Proof.
  intros H. unfold weight. destruct (Nat.eqb count 0); [apply nn_zero|].
  apply nn_mul; [apply nn_of_count | apply finite_nonneg_nn, H].
Qed.

Lemma nn_tfidf_row (v : TfidfVectorizer) (d : list string) :
  Forall (fun w => finite_nonneg w = true) (idf_ v) ->
  Forall (fun w => nn w) (tfidf_row v d).
Proof.
  intros Hidf. unfold tfidf_row. rewrite Forall_map, Forall_forall.
  intros [t w] Hin. apply nn_weight. rewrite Forall_forall in Hidf.
  apply Hidf. eapply in_combine_r, Hin.
Qed.

Lemma nn_sum_squares (row : list float) :
  Forall (fun w => nn w) row -> nn (sum_squares row).
Proof.
  unfold sum_squares. generalize nn_zero. generalize 0 as sum.
  induction row as [|x row IH]; intros sum Hs Hrow; [exact Hs|].
  inversion Hrow; subst. cbn [fold_left]. apply IH; [|assumption].
  apply nn_add; [exact Hs | apply nn_mul; assumption].
Qed.

Lemma nn_normalize (row : list float) :
  Forall (fun w => nn w) row -> Forall (fun w => nn w) (normalize row).
Proof.
  intros Hrow. unfold normalize.
  destruct (sum_squares row =? 0); [exact Hrow|].
  rewrite Forall_map. eapply Forall_impl; [|exact Hrow].
  intros x Hx. apply nn_div; [exact Hx|]. apply nn_sqrt, nn_sum_squares, Hrow.
Qed.

Lemma nn_dot (u v : list float) :
  Forall (fun w => nn w) u -> Forall (fun w => nn w) v -> nn (dot u v).
Proof.
  unfold dot. generalize nn_zero. generalize 0 as sum. revert v.
  induction u as [|x u IH]; intros v sum Hs Hu Hv; [exact Hs|].
  destruct v as [|y v]; [exact Hs|].
  inversion Hu; inversion Hv; subst. cbn [combine fold_left fst snd].
  apply IH; [|assumption|assumption].
  apply nn_add; [exact Hs | apply nn_mul; assumption].
Qed.

(** A document with no term of the vocabulary has the row of zeros, and
    normalising leaves it. *)
Lemma tfidf_row_zero (v : TfidfVectorizer) (d : list string) :
  (forall t, In t (vocabulary_ v) -> ~ In t d) ->
  Forall (fun w => w = 0) (tfidf_row v d).
Proof.
  intros Hno. unfold tfidf_row. rewrite Forall_map, Forall_forall.
  intros [t w] Hin. cbn [fst snd]. unfold weight, Tfidf.tf.
  rewrite (proj1 (count_occ_not_In string_dec d t)); [reflexivity|].
  apply Hno. eapply in_combine_l, Hin.
Qed.

Lemma normalize_zero_row (row : list float) :
  Forall (fun w => w = 0) row -> normalize row = row.
Proof.
  intros Hrow. unfold normalize.
  assert (Hs : sum_squares row = 0).
  { unfold sum_squares. induction Hrow as [|x row -> _ IH];
      [reflexivity | exact IH]. }
  rewrite Hs. reflexivity.
Qed.

Variable ENGLISH_STOP_WORDS : list string.
Variable tokenize : string -> list string.


End Float64Facts.

Section Float64Examples.

Import Floats.
Local Open Scope float_scope.
Local Open Scope string_scope.



End Float64Examples.

(** ** The query on a fitted corpus

    The facts about [related_email_indices] hold of the similarities the
    notebook computes, which are never negative. *)

Section SearchFacts.

Import Tfidf.
Local Open Scope R_scope.

Variable ENGLISH_STOP_WORDS : list string.
Variable tokenize : string -> list string.

Lemma Rltb_lt (x y : R) : num_ltb x y = true <-> x < y.
Proof.
  unfold num_ltb. simpl. rewrite negb_true_iff.
  unfold Rleb. destruct (Rle_dec y x); split; intros; try easy; lra.
Qed.

Lemma cosine_sim_nonneg (raw_documents : list string) (query : string)
    (v : TfidfVectorizer) (x_dense : list (list R)) :
  Tfidf.fit_transform ENGLISH_STOP_WORDS tokenize raw_documents
    = Ok (v, x_dense) ->
  Forall (fun s => num_leb num_zero s = true)
    (Tfidf.cosine_sim ENGLISH_STOP_WORDS tokenize v x_dense query)
  /\ List.length (Tfidf.cosine_sim ENGLISH_STOP_WORDS tokenize v x_dense query)
     = List.length raw_documents.
Proof.
  intros H.
  rewrite cosine_sim_dots. split.
  - rewrite Forall_map.
    eapply Forall_impl; [|exact (fitted_scores_bounded _ _ _ query H)].
    intros row Hb. simpl. apply Rleb_le. lra.
  - destruct (fit_transform_inv _ _ raw_documents H) as (_ & _ & ->).
    unfold Tfidf.transform. rewrite !length_map. reflexivity.
Qed.

(** When some document matches, every index [search] returns is the index of
    a document of the corpus whose similarity to the query is above 0. *)
Lemma search_returns_matches (raw_documents : list string) (query : string)
    (v : TfidfVectorizer) (x_dense : list (list R)) :
  Tfidf.fit_transform ENGLISH_STOP_WORDS tokenize raw_documents
    = Ok (v, x_dense) ->
  let cosine_sim :=
    Tfidf.cosine_sim ENGLISH_STOP_WORDS tokenize v x_dense query in
  (1 <= np.count_nonzero cosine_sim)%nat ->
  exists indices,
    Query.search ENGLISH_STOP_WORDS tokenize raw_documents query = Ok indices
    /\ Forall (fun i => (i < List.length raw_documents)%nat
                        /\ 0 < nth i cosine_sim 0) indices.
Proof.
  intros H cosine_sim Hx.
  destruct (cosine_sim_nonneg raw_documents query H) as [Hpos Hlen].
  pose proof (related_email_indices_positive Hpos Hx) as Hall.
  exists (Query.related_email_indices cosine_sim). split.
  - unfold Query.search. rewrite H. reflexivity.
  - eapply Forall_impl; [|exact Hall].
    intros i [Hi Hs]. unfold cosine_sim in *. rewrite Hlen in Hi.
    split; [exact Hi|]. apply Rltb_lt in Hs. exact Hs.
Qed.

End SearchFacts.

(** * Further properties of the cells *)

(** ** The cleaned text *)

Section CleanedText.

Import PyRe Text.
Local Open Scope string_scope.

Lemma all_chars_app (P : ascii -> bool) (a b : string) :
  all_chars P (a ++ b) = all_chars P a && all_chars P b.
Proof.
  induction a as [|c a IH]; simpl; [reflexivity|].
  rewrite IH, andb_assoc. reflexivity.
Qed.

(** A substitution brings in no character but those of the replacement. *)
Lemma sub_scan_chars (P : ascii -> bool) (r : pattern) (repl : string) :
  all_chars P repl = true ->
  forall s bol skip,
    all_chars P s = true -> all_chars P (sub_scan r repl bol skip s) = true.
Proof.
  intros Hrepl. induction s as [|x s IH]; intros bol skip Hs.
  - destruct skip; simpl; [|reflexivity].
    destruct (match_at r bol "") as [[|k]|]; simpl;
      rewrite ?all_chars_app, ?Hrepl; reflexivity.
  - simpl in Hs. apply andb_prop in Hs. destruct Hs as [Hx Hs].
    destruct skip; simpl; [|apply IH, Hs].
    destruct (match_at r bol (String x s)) as [[|k]|]; simpl;
      rewrite ?all_chars_app, ?Hrepl; simpl; rewrite ?Hx, ?IH; auto.
Qed.

Lemma star_k_total (c : ascii -> bool) (k : bool -> string -> option nat) :
  (forall b s, k b s <> None) -> forall s b, star_k c k b s <> None.
Proof.
  intros Hk. induction s as [|x s IH]; intros b; simpl; [apply Hk|].
  destruct (c x); [|apply Hk].
  destruct (star_k c k false s); [discriminate | apply Hk].
Qed.

Lemma special_match (bol : bool) (x : ascii) (s : string) :
  (alnum x = true /\ match_at Cleaning.re_special bol (String x s) = None)
  \/ (alnum x = false
      /\ exists n, match_at Cleaning.re_special bol (String x s) = Some (S n)).
Proof.
  cbn [match_at match_seq Cleaning.re_special]. unfold nonalnum.
  destruct (alnum x); simpl; [left; auto | right; split; [reflexivity|]].
  destruct (star_k (fun c => negb (alnum c)) (fun _ _ => Some 0) false s)
    as [n|] eqn:Es.
  - exists n. reflexivity.
  - exfalso. revert Es. apply star_k_total. intros; discriminate.
Qed.

(** After [[^a-zA-Z0-9]+] is replaced by a space only letters, digits and
    spaces are left. *)
Lemma special_chars (s : string) (bol : bool) (skip : nat) :
  all_chars alnum_or_space (sub_scan Cleaning.re_special " " bol skip s) = true.
Proof.
  revert bol skip. induction s as [|x s IH]; intros bol skip.
  - destruct skip; reflexivity.
  - destruct skip; cbn [sub_scan]; [|apply IH].
    destruct (special_match bol x s) as [[E ->]|[E [n ->]]].
    + cbn [all_chars]. unfold alnum_or_space at 1. rewrite E, IH. reflexivity.
    + cbn [append all_chars]. rewrite IH. reflexivity.
Qed.

(** The cleaned body is made of letters, digits and spaces only. *)
Theorem clean_body_alphabet (x : string) :
  all_chars alnum_or_space (Cleaning.clean_body x) = true.
Proof.
  unfold Cleaning.clean_body, sub.
  apply sub_scan_chars; [reflexivity|].
  apply sub_scan_chars; [reflexivity|].
  apply special_chars.
Qed.

Lemma spaces_run (s : string) (b : bool) :
  star_k (lit " ") (match_seq []) b s = Some (leading_spaces s).
Proof.
  revert b. induction s as [|x s IH]; intros b;
    cbn [star_k leading_spaces match_seq]; [reflexivity|].
  unfold lit, is_space. rewrite (Ascii.eqb_sym x " ").
  destruct (Ascii.eqb " " x); [rewrite IH|]; reflexivity.
Qed.

Lemma spaces_match (bol : bool) (x : ascii) (s : string) :
  match_at Cleaning.re_spaces bol (String x s)
  = if is_space x then Some (S (leading_spaces s)) else None.
Proof.
  cbn [match_at match_seq Cleaning.re_spaces]. rewrite spaces_run.
  unfold lit, is_space. rewrite (Ascii.eqb_sym x " ").
  destruct (Ascii.eqb " " x); reflexivity.
Qed.

Lemma no_double_space_cons (c : ascii) (s : string) :
  no_double_space s = true ->
  is_space c = false \/ starts_without_space s = true ->
  no_double_space (String c s) = true.
Proof.
  intros Hs Hc. destruct s as [|c' s]; [reflexivity|].
  change (no_double_space (String c (String c' s)))
    with (negb (is_space c && is_space c') && no_double_space (String c' s)).
  rewrite Hs, andb_true_r.
  destruct Hc as [->|Hc]; [reflexivity|].
  simpl in Hc. apply negb_true_iff in Hc. rewrite Hc, andb_false_r.
  reflexivity.
Qed.

(** The last substitution, from a fresh position and in the middle of a run
    of spaces. *)
Lemma collapse_spaces (s : string) :
  (forall bol,
     no_double_space (sub_scan Cleaning.re_spaces " " bol 0 s) = true)
  /\ (no_double_space
        (sub_scan Cleaning.re_spaces " " false (leading_spaces s) s) = true
      /\ starts_without_space
           (sub_scan Cleaning.re_spaces " " false (leading_spaces s) s) = true).
Proof.
  induction s as [|x s [IHa [IHb IHc]]].
  - split; [intros bol|split]; reflexivity.
  - split; [intros bol|].
    + cbn [sub_scan]. rewrite spaces_match.
      destruct (is_space x) eqn:E.
      * cbn [append]. apply no_double_space_cons; [exact IHb | right; exact IHc].
      * apply no_double_space_cons; [apply IHa | left; exact E].
    + cbn [leading_spaces]. destruct (is_space x) eqn:E.
      * cbn [sub_scan]. split; assumption.
      * cbn [sub_scan]. rewrite spaces_match, E. split.
        -- apply no_double_space_cons; [apply IHa | left; exact E].
        -- simpl. rewrite E. reflexivity.
Qed.

(** The cleaned body has no two spaces in a row. *)
Theorem clean_body_single_spaces (x : string) :
  no_double_space (Cleaning.clean_body x) = true.
Proof.
  unfold Cleaning.clean_body, sub. apply collapse_spaces.
Qed.

(** *** The cut at the reply delimiter *)

Lemma prefix_self_app (sep b : string) : String.prefix sep (sep ++ b) = true.
Proof.
  induction sep as [|c sep IH]; simpl; [destruct b; reflexivity|].
  destruct (ascii_dec c c); [exact IH | congruence].
Qed.

Lemma prefix_app_r (sep u r : string) :
  String.prefix sep u = true -> String.prefix sep (u ++ r) = true.
Proof.
  revert u. induction sep as [|c sep IH]; intros u H.
  - destruct (u ++ r); reflexivity.
  - destruct u as [|d u]; simpl in *; [discriminate|].
    destruct (ascii_dec c d); [apply IH, H | discriminate].
Qed.

Lemma split_head_nil (sep : string) : Cleaning.split_head sep "" = "".
Proof. destruct sep; reflexivity. Qed.

Lemma split_head_cons (sep : string) (c : ascii) (s : string) :
  Cleaning.split_head sep (String c s)
  = if String.prefix sep (String c s) then ""
    else String c (Cleaning.split_head sep s).
Proof. reflexivity. Qed.

Lemma split_head_rest (sep s : string) :
  exists rest,
    s = Cleaning.split_head sep s ++ rest
    /\ (rest = "" \/ String.prefix sep rest = true).
Proof.
  induction s as [|c s (rest & Hs & Hr)].
  - exists "". rewrite split_head_nil. auto.
  - rewrite split_head_cons. destruct (String.prefix sep (String c s)) eqn:E.
    + exists (String c s). auto.
    + exists rest. simpl. rewrite <- Hs. auto.
Qed.

Lemma split_head_idem (sep s : string) :
  Cleaning.split_head sep (Cleaning.split_head sep s)
  = Cleaning.split_head sep s.
Proof.
  induction s as [|c s IH].
  - rewrite !split_head_nil. reflexivity.
  - rewrite split_head_cons. destruct (String.prefix sep (String c s)) eqn:E.
    + apply split_head_nil.
    + rewrite split_head_cons.
      destruct (String.prefix sep (String c (Cleaning.split_head sep s)))
        eqn:E'; [|rewrite IH; reflexivity].
      exfalso. destruct (split_head_rest sep s) as (rest & Hs & _).
      apply (prefix_app_r _ _ rest) in E'.
      change (String c (Cleaning.split_head sep s) ++ rest)
        with (String c (Cleaning.split_head sep s ++ rest)) in E'.
      rewrite <- Hs in E'. congruence.
Qed.

Lemma split_head_short (sep a b : string) :
  String.length (Cleaning.split_head sep (a ++ sep ++ b)) <= String.length a.
Proof.
  induction a as [|c a IH].
  - simpl. destruct (sep ++ b) as [|d t] eqn:E.
    + rewrite split_head_nil. simpl. lia.
    + rewrite split_head_cons, <- E, prefix_self_app. simpl. lia.
  - cbn [append]. rewrite split_head_cons.
    destruct (String.prefix sep (String c (a ++ sep ++ b))); simpl; lia.
Qed.

Lemma length_append (a b : string) :
  String.length (a ++ b) = String.length a + String.length b.
Proof. induction a as [|c a IH]; simpl; [|rewrite IH]; reflexivity. Qed.

(** [.str.split(sep).str[0]], for a [sep] that pandas reads literally (one
    character, or longer and without a metacharacter of regular expressions,
    as the notebook's delimiter is), keeps the text before the first [sep]:
    the body is the kept text followed by nothing or by something that starts
    with [sep], and [sep] does not occur in the kept text. *)
Theorem split_head_cuts_at_first (sep s : string) :
  Cleaning.literal sep = true ->
  (exists rest,
     s = Cleaning.split_head sep s ++ rest
     /\ (rest = "" \/ String.prefix sep rest = true))
  /\ (forall a b, Cleaning.split_head sep s <> a ++ sep ++ b).
Proof.
  intros Hsep. split; [apply split_head_rest|].
  intros a b E.
  pose proof (split_head_short sep a b) as Hlen.
  rewrite <- E, split_head_idem, E, !length_append in Hlen.
  destruct sep; [discriminate | simpl in Hlen; lia].
Qed.

(** The notebook's delimiter, in a reply that quotes an earlier message. *)
Lemma split_head_cuts_at_first_witness :
  Cleaning.literal Cleaning.reply_delimiter = true
  /\ Cleaning.split_head Cleaning.reply_delimiter
       ("Hello" ++ Cleaning.reply_delimiter ++ ": me")
     = "Hello"
  /\ exists rest,
       "Hello" ++ Cleaning.reply_delimiter ++ ": me"
       = Cleaning.split_head Cleaning.reply_delimiter
           ("Hello" ++ Cleaning.reply_delimiter ++ ": me") ++ rest
       /\ (rest = "" \/ String.prefix Cleaning.reply_delimiter rest = true).
Proof.
  assert (H : Cleaning.literal Cleaning.reply_delimiter = true)
    by reflexivity.
  split; [exact H|]. split; [reflexivity|].
  exact (proj1 (@split_head_cuts_at_first Cleaning.reply_delimiter
                  ("Hello" ++ Cleaning.reply_delimiter ++ ": me") H)).
Defined.

End CleanedText.

(** ** The rows of the frame *)

Section FrameRows.

Local Open Scope string_scope.

Lemma read_email_fields (message : MailItem) (email : Row) :
  read_email message = Ok email ->
  EntryID message = Returned (EmailID email)
  /\ SenderEmailAddress message = Returned (From_ email)
  /\ ReceivedTime message = Returned (Date email)
  /\ subject message = Returned (Subject email)
  /\ body message = Returned (Body email)
  /\ Parent message = Returned (Parent_ email)
  /\ Class email = "unknown".
Proof.
  unfold read_email.
  destruct (EntryID message), (SenderEmailAddress message),
    (ReceivedTime message), (subject message), (body message),
    (Parent message); simpl; try discriminate.
  intros [= <-]. simpl. repeat split; reflexivity.
Qed.

(** The reading loop never makes up a row: there are at most as many rows as
    messages, and every row holds the six properties read from one message of
    the inbox, with the class "unknown". *)
Theorem emaillist_rows_were_read (messages : list MailItem) :
  List.length (emaillist messages) <= List.length messages
  /\ Forall (fun email =>
               exists message,
                 In message messages
                 /\ EntryID message = Returned (EmailID email)
                 /\ SenderEmailAddress message = Returned (From_ email)
                 /\ ReceivedTime message = Returned (Date email)
                 /\ subject message = Returned (Subject email)
                 /\ body message = Returned (Body email)
                 /\ Parent message = Returned (Parent_ email)
                 /\ Class email = "unknown")
            (emaillist messages).
Proof.
  induction messages as [|m messages [IHl IHr]]; simpl.
  - split; [lia | constructor].
  - assert (Hrest : Forall (fun email =>
               exists message,
                 In message (m :: messages)
                 /\ EntryID message = Returned (EmailID email)
                 /\ SenderEmailAddress message = Returned (From_ email)
                 /\ ReceivedTime message = Returned (Date email)
                 /\ subject message = Returned (Subject email)
                 /\ body message = Returned (Body email)
                 /\ Parent message = Returned (Parent_ email)
                 /\ Class email = "unknown") (emaillist messages)).
    { eapply Forall_impl; [|exact IHr].
      intros email (message & Hin & H). exists message.
      split; [right; exact Hin | exact H]. }
    destruct (read_email m) as [email|e] eqn:E; simpl.
    + split; [lia|]. constructor; [|exact Hrest].
      exists m. split; [left; reflexivity | apply read_email_fields, E].
    + split; [lia | exact Hrest].
Qed.

Lemma emaillist_readable_ids (messages : list MailItem) :
  Forall (fun message => exists email, read_email message = Ok email)
         messages ->
  map (fun email => Returned (EmailID email)) (emaillist messages)
  = map EntryID messages.
Proof.
  induction 1 as [|m messages [email Hm] _ IH]; simpl.
  - reflexivity.
  - rewrite Hm. simpl. rewrite IH.
    destruct (read_email_fields _ Hm) as (-> & _). reflexivity.
Qed.

(** When every property of every message can be read the frame has one row
    per message, in the order of the inbox. *)
Theorem emaillist_of_readable_inbox (messages : list MailItem) :
  Forall (fun message => exists email, read_email message = Ok email)
         messages ->
  map (fun email => Returned (EmailID email)) (emaillist messages)
  = map EntryID messages
  /\ map (fun email => Returned (Body email)) (emaillist messages)
     = map body messages.
Proof.
  intros Hall. split; [apply emaillist_readable_ids, Hall|].
  induction Hall as [|m messages [email Hm] _ IH]; simpl.
  - reflexivity.
  - rewrite Hm. simpl. rewrite IH.
    destruct (read_email_fields _ Hm) as (_ & _ & _ & _ & -> & _).
    reflexivity.
Qed.

(** Two readable items. *)
Lemma emaillist_of_readable_inbox_witness :
  Forall (fun message => exists email, read_email message = Ok email)
         [mail_item "id1" "Hello" false; mail_item "id2" "budget" false]
  /\ map (fun email => Returned (EmailID email))
         (emaillist [mail_item "id1" "Hello" false;
                     mail_item "id2" "budget" false])
     = [Returned "id1"; Returned "id2"].
Proof.
  assert (H : Forall (fun message => exists email, read_email message = Ok email)
                [mail_item "id1" "Hello" false; mail_item "id2" "budget" false])
    by (repeat constructor; eexists; reflexivity).
  split; [exact H|].
  exact (proj1 (emaillist_of_readable_inbox H)).
Defined.

End FrameRows.

(** ** The fitted vocabulary and matrix *)

Lemma insert_term_perm (t : string) (l : list string) :
  Permutation (Tfidf.insert_term t l) (t :: l).
Proof.
  induction l as [|u l IH]; simpl; [apply Permutation_refl|].
  destruct (String.leb t u); [apply Permutation_refl|].
  eapply perm_trans; [apply perm_skip, IH | apply perm_swap].
Qed.

Lemma insert_term_hd (t u : string) (l : list string) :
  string_le u t -> HdRel string_le u l ->
  HdRel string_le u (Tfidf.insert_term t l).
Proof.
  intros Hut Hl. destruct l as [|w l]; simpl; [constructor; exact Hut|].
  destruct (String.leb t w); constructor; [exact Hut|].
  inversion Hl; assumption.
Qed.

Lemma insert_term_sorted (t : string) (l : list string) :
  Sorted string_le l -> Sorted string_le (Tfidf.insert_term t l).
Proof.
  induction 1 as [|u l Hs IH Hu]; simpl.
  - constructor; constructor.
  - destruct (String.leb t u) eqn:E.
    + constructor; [constructor; assumption | constructor; exact E].
    + constructor; [exact IH|]. apply insert_term_hd; [|exact Hu].
      destruct (String.leb_total t u) as [H|H]; [congruence | exact H].
Qed.

Lemma vocabulary_sorted (docs : list (list string)) :
  Sorted string_le (Tfidf.vocabulary docs) /\ NoDup (Tfidf.vocabulary docs).
Proof.
  unfold Tfidf.vocabulary.
  pose proof (NoDup_nodup string_dec (List.concat docs)) as Hn.
  induction (nodup string_dec (List.concat docs)) as [|t l IH]; simpl.
  - split; constructor.
  - inversion Hn as [|? ? Ht Hl]; subst. destruct (IH Hl) as [IHs IHn].
    split; [apply insert_term_sorted, IHs|].
    apply (Permutation_NoDup (Permutation_sym (insert_term_perm _ _))).
    constructor; [|exact IHn].
    intros Hin. apply Ht.
    clear - Hin. induction l as [|u l IHl]; simpl in *; [contradiction|].
    apply (Permutation_in _ (insert_term_perm u _)) in Hin.
    destruct Hin as [<-|Hin]; [left; reflexivity | right; apply IHl, Hin].
Qed.

Lemma mem_In (t : string) (l : list string) :
  Tfidf.mem t l = true <-> In t l.
Proof.
  unfold Tfidf.mem. rewrite existsb_exists. split.
  - intros (u & Hu & E). apply String.eqb_eq in E. subst. exact Hu.
  - intros H. exists t. split; [exact H | apply String.eqb_refl].
Qed.

Section VectorizerMore.

Import Tfidf.
Local Open Scope R_scope.

Variable ENGLISH_STOP_WORDS : list string.
Variable tokenize : string -> list string.

Local Abbreviation stopwords := (Tfidf.stopwords ENGLISH_STOP_WORDS).
Local Abbreviation analyze := (Tfidf.analyze ENGLISH_STOP_WORDS tokenize).
Local Abbreviation transform := (Tfidf.transform ENGLISH_STOP_WORDS tokenize).
Local Abbreviation fit_transform :=
  (Tfidf.fit_transform ENGLISH_STOP_WORDS tokenize).
Local Abbreviation cosine_sim :=
  (Tfidf.cosine_sim ENGLISH_STOP_WORDS tokenize).
Local Abbreviation raw_weights :=
  (Tfidf.raw_weights ENGLISH_STOP_WORDS tokenize).

Lemma fitted (raw_documents : list string) (v : TfidfVectorizer)
    (x_dense : list (list R)) :
  fit_transform raw_documents = Ok (v, x_dense) ->
  vocabulary_ v = vocabulary (map analyze raw_documents)
  /\ x_dense
     = map (fun doc =>
              normalize (raw_weights raw_documents (vocabulary_ v)
                           (analyze doc))) raw_documents
  /\ forall query,
       cosine_sim v x_dense query
       = map (dot (normalize (raw_weights raw_documents (vocabulary_ v)
                                (analyze query)))) x_dense.
Proof.
  intros H.
  destruct (fit_transform_inv ENGLISH_STOP_WORDS tokenize raw_documents H)
    as (Hvoc & _ & Hx).
  split; [exact Hvoc|]. split.
  - rewrite Hx. unfold Tfidf.transform. apply map_ext. intros doc.
    rewrite (tfidf_row_fitted ENGLISH_STOP_WORDS tokenize raw_documents _ H).
    reflexivity.
  - intros query. rewrite cosine_sim_dots.
    rewrite (tfidf_row_fitted ENGLISH_STOP_WORDS tokenize raw_documents _ H).
    reflexivity.
Qed.

Lemma analyze_no_stop_word (doc t : string) :
  In t (analyze doc) -> ~ In t stopwords.
Proof.
  unfold Tfidf.analyze. rewrite filter_In. intros [_ Hn] Hin.
  apply mem_In in Hin. rewrite Hin in Hn. discriminate.
Qed.

(** No stop word is a feature: neither a word of scikit-learn's list nor one
    of the nine names the notebook adds. *)
Theorem stop_words_are_no_features (raw_documents : list string)
    (v : TfidfVectorizer) (x_dense : list (list R)) :
  fit_transform raw_documents = Ok (v, x_dense) ->
  forall t, In t stopwords -> ~ In t (vocabulary_ v).
Proof.
  intros H t Hstop Hin. destruct (fitted _ H) as (Hvoc & _).
  rewrite Hvoc in Hin. apply vocabulary_in in Hin.
  destruct Hin as (d & Hd & Ht). apply in_map_iff in Hd.
  destruct Hd as (doc & <- & _).
  exact (analyze_no_stop_word _ _ Ht Hstop).
Qed.

(** The features are in ascending order, without repetition, and each one
    is a term of some document of the corpus. *)
Theorem features_sorted_distinct (raw_documents : list string)
    (v : TfidfVectorizer) (x_dense : list (list R)) :
  fit_transform raw_documents = Ok (v, x_dense) ->
  Sorted string_le (vocabulary_ v)
  /\ NoDup (vocabulary_ v)
  /\ forall t, In t (vocabulary_ v) <->
               exists doc, In doc raw_documents /\ In t (analyze doc).
Proof.
  intros H. destruct (fitted _ H) as (Hvoc & _). rewrite Hvoc.
  destruct (vocabulary_sorted (map analyze raw_documents)) as [Hs Hn].
  refine (conj Hs (conj Hn _)). intros t. rewrite vocabulary_in. split.
  - intros (d & Hd & Ht). apply in_map_iff in Hd.
    destruct Hd as (doc & <- & Hdoc). exists doc. auto.
  - intros (doc & Hdoc & Ht). exists (analyze doc). split; [|exact Ht].
    apply in_map, Hdoc.
Qed.

(** The matrix has one row per document and one column per feature, and
    there is one idf per feature. *)
Theorem matrix_shape (raw_documents : list string)
    (v : TfidfVectorizer) (x_dense : list (list R)) :
  fit_transform raw_documents = Ok (v, x_dense) ->
  List.length x_dense = List.length raw_documents
  /\ Forall (fun row => List.length row = List.length (vocabulary_ v)) x_dense
  /\ List.length (idf_ v) = List.length (vocabulary_ v)
  /\ (0 < List.length (vocabulary_ v))%nat.
Proof.
  intros H. destruct (fitted _ H) as (_ & Hx & _).
  destruct (fit_transform_inv ENGLISH_STOP_WORDS tokenize raw_documents H)
    as (_ & Hidf & _).
  refine (conj _ (conj _ (conj _ _))).
  - rewrite Hx. apply length_map.
  - rewrite Hx, Forall_map, Forall_forall. intros doc _.
    unfold normalize, Tfidf.raw_weights. rewrite !length_map. reflexivity.
  - rewrite Hidf at 1. apply length_map.
  - revert H. unfold Tfidf.fit_transform, Tfidf.fit.
    destruct (vocabulary (map analyze raw_documents)); simpl;
      [discriminate|].
    intros [= <- _]. simpl. lia.
Qed.

(** [fit_transform] raises exactly when no document has a term left after
    analysis, the empty corpus included; the exception is [ValueError]. *)
Theorem fit_transform_raises (raw_documents : list string) :
  (fit_transform raw_documents = Raise ValueError
   <-> Forall (fun doc => analyze doc = []) raw_documents)
  /\ (forall e, fit_transform raw_documents = Raise e -> e = ValueError).
Proof.
  unfold Tfidf.fit_transform, Tfidf.fit.
  destruct (vocabulary (map analyze raw_documents)) as [|t vocab] eqn:E; simpl.
  - split; [|intros e [= <-]; reflexivity].
    split; [intros _|reflexivity].
    rewrite Forall_forall. intros doc Hdoc.
    destruct (analyze doc) as [|u d] eqn:Ed; [reflexivity|].
    assert (Hin : In u (vocabulary (map analyze raw_documents))).
    { apply vocabulary_in. exists (analyze doc). split.
      - apply in_map, Hdoc.
      - rewrite Ed. left. reflexivity. }
    rewrite E in Hin. contradiction.
  - split; [|intros e; discriminate].
    split; [discriminate|]. intros Hall. exfalso.
    assert (Hin : In t (vocabulary (map analyze raw_documents)))
      by (rewrite E; left; reflexivity).
    apply vocabulary_in in Hin. destruct Hin as (d & Hd & Ht).
    apply in_map_iff in Hd. destruct Hd as (doc & <- & Hdoc).
    rewrite Forall_forall in Hall. rewrite (Hall doc Hdoc) in Ht.
    contradiction.
Qed.

End VectorizerMore.

(** ** Weights and scores *)

Section ScoreLemmas.

Import Tfidf.
Local Open Scope R_scope.

Lemma entry_le_dot (w : R) (u : list R) : In w u -> w * w <= dot u u.
Proof.
  induction u as [|a u IH]; intros H; [contradiction|].
  rewrite dot_cons. pose proof (dot_self_nonneg u) as Hu.
  destruct H as [->|H].
  - dots. lra.
  - specialize (IH H). pose proof (Rle_0_sqr a) as Ha. unfold Rsqr in Ha.
    dots. lra.
Qed.

Lemma normalize_scale (u : list R) :
  exists c, 0 < c /\ normalize u = map (fun w => w / c) u.
Proof.
  unfold normalize. destruct (Req_dec_T (norm u) 0) as [E|E].
  - exists 1. split; [lra | reflexivity].
  - exists (norm u). split; [|reflexivity].
    pose proof (norm_nonneg u). lra.
Qed.

Lemma dot_scale2 (c d : R) (u v : list R) :
  c <> 0 -> d <> 0 ->
  dot (map (fun w => w / c) u) (map (fun w => w / d) v) = dot u v / (c * d).
Proof.
  intros Hc Hd. revert v. induction u as [|a u IH]; intros [|b v]; simpl;
    rewrite ?dot_nil_l, ?dot_nil_r; try (field; split; assumption).
  rewrite !dot_cons, IH. field. split; assumption.
Qed.

Lemma dot_maps_nonneg {B : Type} (f g : B -> R) (l : list B) :
  (forall t, 0 <= f t) -> (forall t, 0 <= g t) ->
  0 <= dot (map f l) (map g l).
Proof.
  intros Hf Hg. apply dot_nonneg; unfold nonneg; rewrite Forall_map;
    apply Forall_forall; auto.
Qed.

Lemma dot_maps_pos {B : Type} (f g : B -> R) (l : list B) :
  (forall t, 0 <= f t) -> (forall t, 0 <= g t) ->
  (0 < dot (map f l) (map g l) <-> exists t, In t l /\ 0 < f t * g t).
Proof.
  intros Hf Hg. induction l as [|a l IH]; simpl.
  - rewrite dot_nil_l. split; [lra | intros (t & [] & _)].
  - rewrite dot_cons. pose proof (dot_maps_nonneg f g l Hf Hg) as Hd.
    pose proof (Rmult_le_pos _ _ (Hf a) (Hg a)) as Ha. split.
    + intros H. destruct (Rle_lt_dec (f a * g a) 0) as [Hz|Hp].
      * assert (Hr : 0 < dot (map f l) (map g l)) by (dots; lra).
        apply IH in Hr. destruct Hr as (t & Ht & Hp). exists t. auto.
      * exists a. auto.
    + intros (t & [<-|Ht] & Hp).
      * dots. lra.
      * assert (Hr : 0 < dot (map f l) (map g l))
          by (apply IH; exists t; auto).
        dots. lra.
Qed.

Lemma weight_product_pos (n m : nat) (i j : R) :
  1 <= i -> 1 <= j ->
  (0 < (INR n * i) * (INR m * j) <-> (0 < n)%nat /\ (0 < m)%nat).
Proof.
  intros Hi Hj. pose proof (pos_INR n) as Hn. pose proof (pos_INR m) as Hm.
  split.
  - intros H. split.
    + destruct n; [simpl in H; lra | lia].
    + destruct m; [simpl in H; lra | lia].
  - intros [H1 H2]. apply lt_0_INR in H1. apply lt_0_INR in H2.
    apply Rmult_lt_0_compat; apply Rmult_lt_0_compat; lra.
Qed.

End ScoreLemmas.

Section ScoreFacts.

Import Tfidf.
Local Open Scope R_scope.

Variable ENGLISH_STOP_WORDS : list string.
Variable tokenize : string -> list string.

Local Abbreviation analyze := (Tfidf.analyze ENGLISH_STOP_WORDS tokenize).
Local Abbreviation fit_transform :=
  (Tfidf.fit_transform ENGLISH_STOP_WORDS tokenize).
Local Abbreviation cosine_sim :=
  (Tfidf.cosine_sim ENGLISH_STOP_WORDS tokenize).
Local Abbreviation raw_weights :=
  (Tfidf.raw_weights ENGLISH_STOP_WORDS tokenize).

(** Every weight of the fitted matrix lies between 0 and 1. *)
Theorem weights_between_0_and_1 (raw_documents : list string)
    (v : TfidfVectorizer) (x_dense : list (list R)) :
  fit_transform raw_documents = Ok (v, x_dense) ->
  Forall (Forall (fun w => 0 <= w <= 1)) x_dense.
Proof.
  intros H. destruct (fitted _ _ _ H) as (_ & -> & _).
  rewrite Forall_map, Forall_forall. intros doc _.
  set (row := normalize _).
  assert (Hn : nonneg row)
    by (apply normalize_nonneg, raw_weights_nonneg).
  assert (Hu : dot row row <= 1)
    by (apply unit_or_zero_sqr, normalize_unit_or_zero).
  rewrite Forall_forall. intros w Hw.
  pose proof (entry_le_dot _ _ Hw) as Hsq.
  unfold nonneg in Hn. rewrite Forall_forall in Hn. specialize (Hn w Hw).
  dots. nra.
Qed.

(** A document scores above 0 for a query exactly when it shares a term with
    it after analysis; a query with no term of the corpus scores 0
    everywhere. *)
Theorem score_positive_iff_shared_term (raw_documents : list string)
    (query : string) (v : TfidfVectorizer) (x_dense : list (list R)) :
  fit_transform raw_documents = Ok (v, x_dense) ->
  Forall2 (fun doc s =>
             0 < s <-> exists t, In t (analyze query) /\ In t (analyze doc))
          raw_documents (cosine_sim v x_dense query).
Proof.
  intros H. destruct (fitted _ _ _ H) as (Hvoc & Hx & Hsim).
  rewrite Hsim, Hx, map_map. apply Forall2_map_r. intros doc Hdoc.
  destruct (normalize_scale
              (raw_weights raw_documents (vocabulary_ v) (analyze query)))
    as (c & Hc & ->).
  destruct (normalize_scale
              (raw_weights raw_documents (vocabulary_ v) (analyze doc)))
    as (d & Hd & ->).
  rewrite dot_scale2 by lra. unfold Tfidf.raw_weights.
  set (docs := map analyze raw_documents).
  set (f := fun q t => INR (tf t q) * idf (List.length docs) (df t docs)).
  change (fun t => INR (tf t (analyze query))
                   * idf (List.length docs) (df t docs))
    with (f (analyze query)).
  change (fun t => INR (tf t (analyze doc))
                   * idf (List.length docs) (df t docs))
    with (f (analyze doc)).
  assert (Hidf : forall t, 1 <= idf (List.length docs) (df t docs))
    by (intros t; apply idf_ge_1, df_le).
  assert (Hf : forall q t, 0 <= f q t).
  { intros q t. unfold f. specialize (Hidf t). pose proof (pos_INR (tf t q)).
    nra. }
  pose proof (dot_maps_pos (f (analyze query)) (f (analyze doc))
                (vocabulary_ v) (Hf _) (Hf _)) as Hpos.
  assert (Hcd : 0 < c * d) by (apply Rmult_lt_0_compat; assumption).
  split.
  - intros Hs.
    assert (Hdot : 0 < dot (map (f (analyze query)) (vocabulary_ v))
                           (map (f (analyze doc)) (vocabulary_ v))).
    { destruct (Rle_lt_dec (dot (map (f (analyze query)) (vocabulary_ v))
                                (map (f (analyze doc)) (vocabulary_ v))) 0)
        as [Hle|Hlt]; [|exact Hlt].
      exfalso. unfold Rdiv in Hs.
      pose proof (Rinv_0_lt_compat _ Hcd) as Hinv. dots. nra. }
    apply Hpos in Hdot. destruct Hdot as (t & _ & Ht). exists t.
    unfold f in Ht. apply weight_product_pos in Ht; try apply Hidf.
    destruct Ht as [Hq Hdc].
    split; apply (count_occ_In string_dec); assumption.
  - intros (t & Hq & Hdc).
    assert (Hdot : 0 < dot (map (f (analyze query)) (vocabulary_ v))
                           (map (f (analyze doc)) (vocabulary_ v))).
    { apply Hpos. exists t. split.
      - rewrite Hvoc. apply vocabulary_in. exists (analyze doc).
        split; [apply in_map, Hdoc | exact Hdc].
      - unfold f. apply weight_product_pos; try apply Hidf.
        split; apply (count_occ_In string_dec); assumption. }
    apply Rdiv_lt_0_compat; assumption.
Qed.

End ScoreFacts.

(** *** The corpus of one document again *)

Section ScoreExamples.

Import Tfidf.
Local Open Scope string_scope.
Local Open Scope R_scope.

Lemma stop_words_are_no_features_witness :
  exists v x_dense,
    fit_transform [] words ["soil soil"] = Ok (v, x_dense)
    /\ forall t, In t (stopwords []) -> ~ In t (vocabulary_ v).
Proof.
  destruct fit_soil_soil as (v & x_dense & H & _).
  exists v, x_dense. split; [exact H|].
  exact (stop_words_are_no_features [] words ["soil soil"] H).
Defined.

Lemma features_sorted_distinct_witness :
  exists v x_dense,
    fit_transform [] words ["soil soil"] = Ok (v, x_dense)
    /\ NoDup (vocabulary_ v).
Proof.
  destruct fit_soil_soil as (v & x_dense & H & _).
  exists v, x_dense. split; [exact H|].
  exact (proj1 (proj2 (features_sorted_distinct [] words ["soil soil"] H))).
Defined.

Lemma matrix_shape_witness :
  exists v x_dense,
    fit_transform [] words ["soil soil"] = Ok (v, x_dense)
    /\ List.length x_dense = 1%nat.
Proof.
  destruct fit_soil_soil as (v & x_dense & H & _).
  exists v, x_dense. split; [exact H|].
  exact (proj1 (matrix_shape [] words ["soil soil"] H)).
Defined.

Lemma weights_between_0_and_1_witness :
  exists v x_dense,
    fit_transform [] words ["soil soil"] = Ok (v, x_dense)
    /\ Forall (Forall (fun w => 0 <= w <= 1)) x_dense.
Proof.
  destruct fit_soil_soil as (v & x_dense & H & _).
  exists v, x_dense. split; [exact H|].
  exact (weights_between_0_and_1 [] words ["soil soil"] H).
Defined.

Lemma score_positive_iff_shared_term_witness :
  exists v x_dense,
    fit_transform [] words ["soil soil"] = Ok (v, x_dense)
    /\ Forall2 (fun doc s =>
                  0 < s <-> exists t, In t (analyze [] words "soil map")
                                      /\ In t (analyze [] words doc))
               ["soil soil"] (cosine_sim [] words v x_dense "soil map").
Proof.
  destruct fit_soil_soil as (v & x_dense & H & _).
  exists v, x_dense. split; [exact H|].
  exact (score_positive_iff_shared_term [] words ["soil soil"] "soil map" H).
Defined.

End ScoreExamples.

(** ** What the query cell returns *)

Section QueryCount.

Context {A : Type} {N : Number A} {O : NumberOrder A}.

(** Of the [x] documents with a similarity above 0 the slice [[:-x:-1]]
    returns all but one: there is a matching document that is not returned,
    and the documents returned together with it are exactly the matching
    ones. *)
Theorem related_email_indices_drops_one (cosine_sim : list A) :
  Forall (fun s => num_leb num_zero s = true) cosine_sim ->
  1 <= np.count_nonzero cosine_sim ->
  exists missing,
    ~ In missing (Query.related_email_indices cosine_sim)
    /\ List.length (Query.related_email_indices cosine_sim)
       = np.count_nonzero cosine_sim - 1
    /\ forall i,
         In i (Query.related_email_indices cosine_sim ++ [missing])
         <-> i < List.length cosine_sim
             /\ num_ltb num_zero (np.item cosine_sim i) = true.
Proof.
  intros Hpos Hx. pose proof (item_nonneg Hpos) as Hitem.
  pose proof (count_nonzero_le cosine_sim) as Hle.
  set (x := np.count_nonzero cosine_sim) in *.
  set (L := rev (np.argsort cosine_sim)).
  assert (HL : List.length L = List.length cosine_sim)
    by (unfold L; rewrite length_rev; apply argsort_length).
  assert (Hres : Query.related_email_indices cosine_sim = firstn (x - 1) L)
    by (apply related_email_indices_firstn, Hx).
  assert (Hsplit : firstn x L = firstn (x - 1) L ++ [nth (x - 1) L 0]).
  { replace x with (S (x - 1)) at 1 by lia. apply firstn_succ. lia. }
  assert (Hnd : NoDup (firstn x L))
    by (apply firstn_NoDup, NoDup_rev, argsort_NoDup).
  exists (nth (x - 1) L 0). rewrite Hres. refine (conj _ (conj _ _)).
  - rewrite Hsplit in Hnd. apply NoDup_remove_2 in Hnd.
    rewrite app_nil_r in Hnd. exact Hnd.
  - rewrite length_firstn. lia.
  - intros i. rewrite <- Hsplit. unfold x, L.
    rewrite <- (positives_first _ Hitem), filter_In, <- in_rev, argsort_in.
    unfold num_ltb, nonzero, num_eqb. rewrite (Hitem i), andb_true_r.
    reflexivity.
Qed.

(** When no similarity is above 0 the count is 0 and the slice is [[:0:-1]]:
    the cell returns every document but one, although none of them
    matches. *)
Theorem related_email_indices_without_match (cosine_sim : list A) :
  np.count_nonzero cosine_sim = 0 ->
  List.length (Query.related_email_indices cosine_sim)
    = List.length cosine_sim - 1
  /\ NoDup (Query.related_email_indices cosine_sim)
  /\ Forall (fun i => i < List.length cosine_sim
                      /\ nonzero (np.item cosine_sim i) = false)
            (Query.related_email_indices cosine_sim).
Proof.
  intros Hx.
  assert (Hres : Query.related_email_indices cosine_sim
                 = firstn (List.length cosine_sim - 1)
                          (rev (np.argsort cosine_sim))).
  { unfold Query.related_email_indices, Query.related_email_indices_with,
    np.slice_stop_rev.
    rewrite Hx, argsort_length.
    change (- Z.of_nat 0)%Z with 0%Z. change (0 <? 0)%Z with false.
    cbv iota.
    destruct (Z.leb_spec (Z.of_nat (List.length cosine_sim)) 0);
      f_equal; lia. }
  rewrite Hres. refine (conj _ (conj _ _)).
  - rewrite length_firstn, length_rev, argsort_length. lia.
  - apply firstn_NoDup, NoDup_rev, argsort_NoDup.
  - rewrite Forall_forall. intros i Hi.
    assert (Hin : In i (rev (np.argsort cosine_sim))).
    { destruct (firstn_prefix (List.length cosine_sim - 1)
                  (rev (np.argsort cosine_sim))) as [rest E].
      rewrite E. apply in_or_app. left. exact Hi. }
    rewrite <- in_rev in Hin. apply argsort_in in Hin. split; [exact Hin|].
    destruct (nonzero (np.item cosine_sim i)) eqn:E; [|reflexivity].
    exfalso. unfold np.count_nonzero in Hx.
    apply length_zero_iff_nil in Hx.
    assert (Hf : In (np.item cosine_sim i) (filter nonzero cosine_sim)).
    { apply filter_In. split; [apply nth_In, Hin | exact E]. }
    rewrite Hx in Hf. contradiction.
Qed.

End QueryCount.

Local Open Scope Q_scope.

Lemma related_email_indices_drops_one_witness :
  Forall (fun s => num_leb num_zero s = true) [1#2; 1#2; 1#4; 0; 0]
  /\ le 1 (np.count_nonzero [1#2; 1#2; 1#4; 0; 0])
  /\ exists missing,
       ~ In missing (Query.related_email_indices [1#2; 1#2; 1#4; 0; 0])
       /\ List.length (Query.related_email_indices [1#2; 1#2; 1#4; 0; 0])
          = Nat.sub (np.count_nonzero [1#2; 1#2; 1#4; 0; 0]) 1.
Proof.
  assert (H1 : Forall (fun s => num_leb num_zero s = true) [1#2; 1#2; 1#4; 0; 0])
    by (repeat constructor).
  assert (H2 : le 1 (np.count_nonzero [1#2; 1#2; 1#4; 0; 0]))
    by (vm_compute; lia).
  split; [exact H1 | split; [exact H2 |]].
  destruct (related_email_indices_drops_one H1 H2) as (m & Hm & Hl & _).
  exists m. split; assumption.
Defined.

Lemma related_email_indices_without_match_witness :
  np.count_nonzero [0; 0; 0; 0] = 0%nat
  /\ List.length (Query.related_email_indices [0; 0; 0; 0]) = 3%nat.
Proof.
  assert (H : np.count_nonzero [0; 0; 0; 0] = 0%nat) by reflexivity.
  split; [exact H|].
  exact (proj1 (related_email_indices_without_match [0; 0; 0; 0] H)).
Defined.

Local Close Scope Q_scope.

(** *** The query on a corpus of two documents *)

Section SearchExample.

Import Tfidf.
Local Open Scope string_scope.
Local Open Scope R_scope.

Lemma nonzero_1 : nonzero 1 = true.
Proof.
  unfold nonzero, num_eqb. simpl. unfold Rleb.
  destruct (Rle_dec 1 0); [lra | reflexivity].
Qed.

(** Both documents of [["soil soil"; "soil"]] score 1 for the query "soil". *)
Lemma soil_corpus_scores :
  exists v x_dense,
    fit_transform [] words ["soil soil"; "soil"] = Ok (v, x_dense)
    /\ cosine_sim [] words v x_dense "soil" = [1; 1].
Proof.
  assert (Hvoc : vocabulary (map (analyze [] words) ["soil soil"; "soil"])
                 = ["soil"]) by (vm_compute; reflexivity).
  assert (Ha1 : analyze [] words "soil soil" = ["soil"; "soil"])
    by (vm_compute; reflexivity).
  assert (Ha2 : analyze [] words "soil" = ["soil"])
    by (vm_compute; reflexivity).
  assert (Htf1 : tf "soil" ["soil"; "soil"] = 2%nat)
    by (vm_compute; reflexivity).
  assert (Htf2 : tf "soil" ["soil"] = 1%nat) by (vm_compute; reflexivity).
  assert (Hdf : df "soil" [["soil"; "soil"]; ["soil"]] = 2%nat)
    by (vm_compute; reflexivity).
  unfold fit_transform, fit. rewrite Hvoc. cbn [bind].
  eexists. eexists. split; [reflexivity|].
  unfold cosine_sim, flatten, linear_kernel, transform.
  cbn [map List.length List.concat app]. rewrite Ha1, Ha2.
  unfold tfidf_row. cbn [vocabulary_ idf_ combine map fst snd List.length].
  rewrite Htf1, Htf2, Hdf, (idf_all_documents 2).
  replace (INR 2) with 2 by (simpl; lra).
  replace (INR 1) with 1 by (simpl; lra).
  rewrite !normalize_singleton by lra.
  rewrite !dot_cons, !dot_nil_l.
  replace (1 * 1 + 0) with 1 by ring. reflexivity.
Qed.

(** The query "soil" on that corpus. *)
Lemma search_returns_matches_witness :
  exists v x_dense indices,
    fit_transform [] words ["soil soil"; "soil"] = Ok (v, x_dense)
    /\ le 1 (np.count_nonzero (cosine_sim [] words v x_dense "soil"))
    /\ Query.search [] words ["soil soil"; "soil"] "soil" = Ok indices
    /\ Forall (fun i => (i < 2)%nat
                        /\ 0 < nth i (cosine_sim [] words v x_dense "soil") 0)
              indices.
Proof.
  destruct soil_corpus_scores as (v & x_dense & H & Hs).
  assert (Hx : le 1 (np.count_nonzero (cosine_sim [] words v x_dense "soil"))).
  { rewrite Hs. unfold np.count_nonzero. cbn [filter].
    rewrite nonzero_1. simpl. lia. }
  destruct (search_returns_matches [] words ["soil soil"; "soil"] "soil" H Hx)
    as (indices & Hi & Hall).
  exists v, x_dense, indices. repeat split; assumption.
Defined.

End SearchExample.

(** ** Index errors of the ranking functions *)

Section RankerBounds.

Context {A : Type} {N : Number A} {O : NumberOrder A}.

Lemma index_cases {B : Type} (xs : list B) (i : nat) :
  (i < List.length xs /\ exists x, Ranker.index xs i = Ok x)
  \/ (List.length xs <= i /\ Ranker.index xs i = Raise IndexError).
Proof.
  unfold Ranker.index. destruct (nth_error xs i) as [x|] eqn:E.
  - left. split; [|exists x; reflexivity].
    apply nth_error_Some. congruence.
  - right. split; [|reflexivity]. apply nth_error_None, E.
Qed.

Lemma top_tfidf_feats_enough_names (row : list A) (features : list string)
    (top_n : nat) :
  List.length row <= List.length features ->
  exists top,
    Ranker.top_tfidf_feats row features top_n = Ok top
    /\ List.length top = Nat.min top_n (List.length row).
Proof.
  intros Hlen. unfold Ranker.top_tfidf_feats, Ranker.top_tfidf_feats_with.
  destruct (mapM_ok (fun i => f <- Ranker.index features i ;;
                              Ok (f, np.item row i))
              (l := Ranker.topn_ids row top_n)) as (top & Htop & Hl).
  - rewrite Forall_forall. intros i Hi. apply topn_ids_in in Hi.
    destruct (index_cases features i) as [[_ [f Hf]]|[Hge _]]; [|lia].
    rewrite Hf. simpl. eexists. reflexivity.
  - exists top. split; [exact Htop|]. rewrite Hl. apply topn_ids_length.
Qed.

Lemma top_tfidf_feats_too_few_names (row : list A) (features : list string)
    (top_n : nat) :
  List.length features < List.length row -> List.length row <= top_n ->
  Ranker.top_tfidf_feats row features top_n = Raise IndexError.
Proof.
  intros Hlen Hn.
  unfold Ranker.top_tfidf_feats, Ranker.top_tfidf_feats_with.
  apply mapM_raises.
  - intros i _. destruct (index_cases features i) as [[_ [f ->]]|[_ ->]];
      simpl; [left; eexists; reflexivity | right; reflexivity].
  - apply Exists_exists. exists (List.length features). split.
    + unfold Ranker.topn_ids, Ranker.topn_ids_with.
      rewrite firstn_all2 by (rewrite length_rev, argsort_length; exact Hn).
      rewrite <- in_rev. apply argsort_in. exact Hlen.
    + destruct (index_cases features (List.length features))
        as [[Hlt _]|[_ ->]]; [lia | reflexivity].
Qed.

Lemma squeeze_row (row : list A) :
  List.length row <> 1 -> Ranker.squeeze row = Ranker.Array1 row.
Proof.
  destruct row as [|w [|w' row]]; simpl; intros H;
    [reflexivity | lia | reflexivity].
Qed.

Lemma top_tfidf_feats_0d_raises (features : list string) (top_n : nat) :
  1 <= top_n ->
  Ranker.top_tfidf_feats_0d (A := A) features top_n = Raise IndexError.
Proof.
  intros Hn. unfold Ranker.top_tfidf_feats_0d.
  destruct top_n as [|top_n]; [lia|]. cbn [firstn mapM].
  destruct (index_cases features 0) as [[_ [f ->]]|[_ ->]]; reflexivity.
Qed.

(** [top_feats_in_doc]: a row number past the last row is an [IndexError].
    For a row of a matrix with no column or with two or more, the call
    returns [min(top_n, len(row))] pairs when there is a feature name for
    every column, and is an [IndexError] when there are fewer names than
    columns and [top_n] reaches the number of columns.  For a matrix of one
    column [np.squeeze] leaves a zero-dimensional array: the call is an
    [IndexError] for every [top_n] from 1 on, whatever the feature names. *)
Theorem top_feats_in_doc_bounds (X : matrix A) (features : list string)
    (row_id top_n : nat) :
  (List.length (rows X) <= row_id ->
   Ranker.top_feats_in_doc X features row_id top_n = Raise IndexError)
  /\ (forall row, nth_error (rows X) row_id = Some row ->
      (List.length row <> 1 ->
       (List.length row <= List.length features ->
        exists top,
          Ranker.top_feats_in_doc X features row_id top_n = Ok top
          /\ List.length top = Nat.min top_n (List.length row))
       /\ (List.length features < List.length row ->
           List.length row <= top_n ->
           Ranker.top_feats_in_doc X features row_id top_n
           = Raise IndexError))
      /\ (List.length row = 1 -> 1 <= top_n ->
          Ranker.top_feats_in_doc X features row_id top_n
          = Raise IndexError)).
Proof.
  unfold Ranker.top_feats_in_doc, Ranker.index. split.
  - intros H. apply nth_error_None in H. rewrite H. reflexivity.
  - intros row ->. cbn [bind]. split.
    + intros Hrow. rewrite (squeeze_row _ Hrow). split.
      * apply top_tfidf_feats_enough_names.
      * apply top_tfidf_feats_too_few_names.
    + intros Hrow. destruct row as [|w [|w' row]]; simpl in Hrow; try lia.
      cbn [Ranker.squeeze]. apply top_tfidf_feats_0d_raises.
Qed.

(** [top_mean_feats] with a group that is not empty: a document number past
    the last row is an [IndexError]; with every number in range and a feature
    name for every column the call returns [min(top_n, ncols)] pairs. *)
Theorem top_mean_feats_group_bounds (X : matrix A) (features : list string)
    (id : nat) (ids : list nat) (min_tfidf : A) (top_n : nat) :
  (Exists (fun i => List.length (rows X) <= i) (id :: ids) ->
   Ranker.top_mean_feats X features (Some (id :: ids)) min_tfidf top_n
   = Raise IndexError)
  /\ (Forall (fun i => i < List.length (rows X)) (id :: ids) ->
      ncols X <= List.length features ->
      exists top,
        Ranker.top_mean_feats X features (Some (id :: ids)) min_tfidf top_n
        = Ok top
        /\ List.length top = Nat.min top_n (ncols X)).
Proof.
  unfold Ranker.top_mean_feats.
  cbn [Ranker.truthy Ranker.take_rows]. split.
  - intros Hex. rewrite (mapM_raises (Ranker.index (rows X)) (e := IndexError)).
    + reflexivity.
    + intros i _. destruct (index_cases (rows X) i) as [[_ [r ->]]|[_ ->]];
        [left; eexists; reflexivity | right; reflexivity].
    + apply Exists_exists. apply Exists_exists in Hex.
      destruct Hex as (i & Hi & Hge). exists i. split; [exact Hi|].
      destruct (index_cases (rows X) i) as [[Hlt _]|[_ ->]];
        [lia | reflexivity].
  - intros Hall Hlen.
    destruct (mapM_ok (Ranker.index (rows X)) (l := id :: ids))
      as (D & HD & _).
    + rewrite Forall_forall in *. intros i Hi. specialize (Hall i Hi).
      destruct (index_cases (rows X) i) as [[_ Hok]|[Hge _]];
        [exact Hok | lia].
    + rewrite HD. cbn [bind].
      destruct (top_tfidf_feats_enough_names
                  (np.mean_axis0 (ncols X) (Ranker.denoise min_tfidf D))
                  features top_n) as (top & Htop & Hl).
      * rewrite mean_axis0_length. exact Hlen.
      * exists top. split; [exact Htop|].
        rewrite Hl, mean_axis0_length. reflexivity.
Qed.

End RankerBounds.

Local Open Scope Q_scope.
Local Open Scope string_scope.

(** A matrix of one column: the top terms of its first row. *)
Lemma top_feats_in_doc_bounds_witness :
  Ranker.top_feats_in_doc {| rows := [[1#2]; [1#4]]; ncols := 1 |}
    ["aa"] 0 25 = Raise IndexError.
Proof.
  apply (proj2 (proj2 (top_feats_in_doc_bounds
                  {| rows := [[1#2]; [1#4]]; ncols := 1 |}
                  ["aa"] 0 25) [1#2] eq_refl) eq_refl).
  lia.
Defined.

Lemma top_mean_feats_group_bounds_witness :
  Ranker.top_mean_feats {| rows := [[1#2; 0]; [0; 1#2]]; ncols := 2 |}
    ["aa"; "bb"] (Some [0; 5]%nat) (1#10) 25 = Raise IndexError.
Proof.
  apply (proj1 (top_mean_feats_group_bounds
                  {| rows := [[1#2; 0]; [0; 1#2]]; ncols := 2 |}
                  ["aa"; "bb"] 0 [5%nat] (1#10) 25)).
  apply Exists_cons_tl, Exists_cons_hd. simpl. lia.
Defined.

Local Close Scope string_scope.
Local Close Scope Q_scope.

(** ** The dictionary of matches and the tagging loop *)

Section TaggingFacts.

Import Tagger.
Local Open Scope string_scope.

Lemma dict_set_keys (d : dict) (k v : string) :
  (In k (keys d) /\ keys (dict_set d k v) = keys d)
  \/ (~ In k (keys d) /\ keys (dict_set d k v) = (keys d ++ [k])%list).
Proof.
  induction d as [|[k' v'] d IH]; simpl.
  - right. split; [tauto | reflexivity].
  - destruct (String.eqb_spec k' k) as [->|Hne]; simpl.
    + left. split; [left; reflexivity | reflexivity].
    + destruct IH as [[Hin ->]|[Hnin ->]].
      * left. split; [right; exact Hin | reflexivity].
      * right. split; [|reflexivity]. intros [H|H]; [congruence | tauto].
Qed.

Lemma dict_set_in (d : dict) (k v k' : string) :
  In k' (keys (dict_set d k v)) <-> k' = k \/ In k' (keys d).
Proof.
  destruct (dict_set_keys d k v) as [[Hin ->]|[Hnin ->]].
  - split; [tauto|]. intros [->|H]; assumption.
  - rewrite in_app_iff. simpl. intuition congruence.
Qed.

Lemma dict_set_NoDup (d : dict) (k v : string) :
  NoDup (keys d) -> NoDup (keys (dict_set d k v)).
Proof.
  intros Hd. destruct (dict_set_keys d k v) as [[Hin ->]|[Hnin ->]];
    [exact Hd|].
  apply (Permutation_NoDup (l := k :: keys d)); [|constructor; assumption].
  apply Permutation_cons_append.
Qed.

Lemma dict_get_set (d : dict) (k v k' : string) :
  dict_get (dict_set d k v) k' = if String.eqb k k' then Some v
                                 else dict_get d k'.
Proof.
  induction d as [|[k0 v0] d IH]; simpl.
  - reflexivity.
  - destruct (String.eqb_spec k0 k) as [->|Hne]; simpl.
    + destruct (String.eqb k k'); reflexivity.
    + destruct (String.eqb_spec k0 k') as [->|Hne'].
      * destruct (String.eqb_spec k k'); [congruence | reflexivity].
      * exact IH.
Qed.

Lemma dict_get_keys (d : dict) (k : string) :
  In k (keys d) <-> exists v, dict_get d k = Some v.
Proof.
  induction d as [|[k0 v0] d IH]; simpl.
  - split; [tauto | intros [v H]; discriminate].
  - destruct (String.eqb_spec k0 k) as [->|Hne].
    + split; [intros _; eexists; reflexivity | left; reflexivity].
    + rewrite <- IH. intuition congruence.
Qed.

Lemma emaildict_from_spec (frame : list Row) (query : string)
    (indices : list nat) (acc : dict) :
  Forall (fun i => i < List.length frame) indices ->
  NoDup (keys acc) ->
  (forall k, In k (keys acc) -> dict_get acc k = Some query) ->
  exists d,
    emaildict_from frame query indices acc = Some d
    /\ NoDup (keys d)
    /\ (forall k, In k (keys d) <->
                  In k (keys acc)
                  \/ exists i, In i indices /\ loc_EmailID frame i = Some k)
    /\ (forall k, In k (keys d) -> dict_get d k = Some query).
Proof.
  intros Hall. revert acc.
  induction Hall as [|i indices Hi _ IH]; intros acc Hnd Hq; simpl.
  - exists acc. refine (conj eq_refl (conj Hnd (conj _ Hq))).
    intros k. split; [tauto|]. intros [H|(i & [] & _)]; exact H.
  - unfold loc_EmailID at 1.
    destruct (nth_error frame i) as [r|] eqn:E;
      [|apply nth_error_None in E; lia].
    simpl.
    destruct (IH (dict_set acc (EmailID r) query)) as (d & Hd & Hn & Hk & Hv).
    + apply dict_set_NoDup, Hnd.
    + intros k Hin. rewrite dict_get_set.
      destruct (String.eqb_spec (EmailID r) k); [reflexivity|].
      apply Hq. apply dict_set_in in Hin.
      destruct Hin as [->|Hin]; [congruence | exact Hin].
    + exists d. refine (conj Hd (conj Hn (conj _ Hv))).
      intros k. rewrite Hk, dict_set_in. split.
      * intros [[->|H]|(j & Hj & Hl)].
        -- right. exists i. split; [left; reflexivity|].
           unfold loc_EmailID. rewrite E. reflexivity.
        -- left. exact H.
        -- right. exists j. split; [right; exact Hj | exact Hl].
      * intros [H|(j & [<-|Hj] & Hl)].
        -- left. right. exact H.
        -- left. left. unfold loc_EmailID in Hl. rewrite E in Hl.
           simpl in Hl. congruence.
        -- right. exists j. auto.
Qed.

(** The dictionary of matches: for indices within the frame the loop raises
    nothing; the keys are distinct and are exactly the [EmailID]s of the rows
    at those indices; every key has the query as its value. *)
Theorem emaildict_holds_the_matches (frame : list Row) (query : string)
    (related_email_indices : list nat) :
  Forall (fun i => i < List.length frame) related_email_indices ->
  exists d,
    emaildict frame query related_email_indices = Some d
    /\ NoDup (keys d)
    /\ (forall k, In k (keys d) <->
                  exists i, In i related_email_indices
                            /\ loc_EmailID frame i = Some k)
    /\ (forall k, In k (keys d) -> dict_get d k = Some query).
Proof.
  intros Hall.
  destruct (@emaildict_from_spec frame query related_email_indices [] Hall)
    as (d & Hd & Hn & Hk & Hv).
  - constructor.
  - intros k [].
  - exists d. refine (conj Hd (conj Hn (conj _ Hv))).
    intros k. rewrite Hk. simpl. tauto.
Qed.

(** An index that is not in the frame makes [.loc] raise: no dictionary. *)
Theorem emaildict_key_error (frame : list Row) (query : string)
    (related_email_indices : list nat) :
  Exists (fun i => List.length frame <= i) related_email_indices ->
  emaildict frame query related_email_indices = None.
Proof.
  unfold emaildict. generalize (@nil (string * string)) as acc.
  induction related_email_indices as [|i indices IH]; intros acc Hex;
    [inversion Hex|].
  simpl. unfold loc_EmailID at 1.
  destruct (nth_error frame i) as [r|] eqn:E; [|reflexivity].
  simpl. apply IH. inversion Hex as [? ? Hge|]; subst; [|assumption].
  exfalso. apply nth_error_None in Hge. congruence.
Qed.

(** *** The loop over the inbox *)

Lemma tag_message_no_key (message : MailItem) (d : dict) (id : string) :
  EntryID message = Returned id -> ~ In id (keys d) ->
  tag_message message d = Ok message.
Proof.
  intros Hid. induction d as [|[key v] d IH]; intros Hn; simpl;
    [reflexivity|].
  rewrite Hid. simpl. destruct (String.eqb_spec id key) as [->|Hne].
  - exfalso. apply Hn. left. reflexivity.
  - apply IH. intros H. apply Hn. right. exact H.
Qed.

Lemma tag_message_ok (message : MailItem) (d : dict) (id : string) :
  EntryID message = Returned id -> Save_raises message = false ->
  NoDup (keys d) ->
  tag_message message d = Ok (tagged d message).
Proof.
  intros Hid Hs. unfold tagged. rewrite Hid.
  induction d as [|[key v] d IH]; intros Hn; simpl; [reflexivity|].
  rewrite Hid. simpl. inversion Hn as [|? ? Hkey Hd]; subst.
  destruct (String.eqb_spec id key) as [->|Hne].
  - rewrite String.eqb_refl. unfold Save. rewrite Hs. simpl.
    apply tag_message_no_key with (id := key); [exact Hid | exact Hkey].
  - destruct (String.eqb_spec key id); [congruence|]. apply IH, Hd.
Qed.

Lemma tag_messages_ok (messages : list MailItem) (d : dict) :
  Forall (fun m => Save_raises m = false
                   /\ exists id, EntryID m = Returned id) messages ->
  NoDup (keys d) ->
  tag_messages messages d = (map (tagged d) messages, None).
Proof.
  intros Hall Hn. induction Hall as [|m messages [Hs [id Hid]] _ IH]; simpl.
  - reflexivity.
  - rewrite (@tag_message_ok m d id Hid Hs Hn), IH. reflexivity.
Qed.

(** When every [EntryID] can be read and no [Save()] raises, the loop ends
    without an exception; a message whose [EntryID] is a key of the dictionary
    has the value of that key as its category, every other message is as it
    was. *)
Theorem tag_messages_sets_categories (messages : list MailItem) (d : dict) :
  Forall (fun m => Save_raises m = false
                   /\ exists id, EntryID m = Returned id) messages ->
  NoDup (keys d) ->
  exists messages',
    tag_messages messages d = (messages', None)
    /\ Forall2 (fun m m' =>
                  forall id, EntryID m = Returned id ->
                    match dict_get d id with
                    | Some v => m' = set_Categories m v
                    | None => m' = m
                    end) messages messages'.
Proof.
  intros Hall Hn. exists (map (tagged d) messages).
  split; [apply tag_messages_ok; assumption|].
  apply Forall2_map_r. intros m _ id Hid. unfold tagged. rewrite Hid.
  destruct (dict_get d id); reflexivity.
Qed.

Lemma tagged_keeps (d : dict) (m : MailItem) :
  Save_raises (tagged d m) = Save_raises m
  /\ EntryID (tagged d m) = EntryID m.
Proof.
  unfold tagged. destruct (EntryID m) as [id|] eqn:E; [|auto].
  destruct (dict_get d id); simpl; auto.
Qed.

(** Tagging for a second query overwrites: after the loops for two
    dictionaries, a message matched by the second carries the second value
    only; a message matched by the first alone carries the first. *)
Theorem tag_messages_last_query_wins (messages : list MailItem)
    (d1 d2 : dict) :
  Forall (fun m => Save_raises m = false
                   /\ exists id, EntryID m = Returned id) messages ->
  NoDup (keys d1) -> NoDup (keys d2) ->
  exists messages'',
    tag_messages (fst (tag_messages messages d1)) d2 = (messages'', None)
    /\ Forall2 (fun m m'' =>
                  forall id, EntryID m = Returned id ->
                    match dict_get d2 id, dict_get d1 id with
                    | Some v2, _ => m'' = set_Categories m v2
                    | None, Some v1 => m'' = set_Categories m v1
                    | None, None => m'' = m
                    end) messages messages''.
Proof.
  intros Hall Hn1 Hn2.
  rewrite (@tag_messages_ok messages d1 Hall Hn1). simpl.
  assert (Hall' : Forall (fun m => Save_raises m = false
                                   /\ exists id, EntryID m = Returned id)
                         (map (tagged d1) messages)).
  { rewrite Forall_map. eapply Forall_impl; [|exact Hall].
    intros m [Hs [id Hid]]. destruct (tagged_keeps d1 m) as [-> ->].
    split; [exact Hs | exists id; exact Hid]. }
  rewrite (@tag_messages_ok _ d2 Hall' Hn2), map_map.
  eexists. split; [reflexivity|].
  apply Forall2_map_r. intros m _ id Hid.
  unfold tagged. rewrite Hid.
  destruct (dict_get d1 id) as [v1|]; cbn [EntryID set_Categories];
    rewrite Hid; destruct (dict_get d2 id); reflexivity.
Qed.

End TaggingFacts.

(** *** From the indices of the query to the categories of the inbox *)

Section TaggingCells.

Import Tagger.
Local Open Scope string_scope.

Lemma loc_EmailID_of_inbox (messages : list MailItem) (i : nat) (id : string) :
  Forall (fun message => exists email, read_email message = Ok email)
         messages ->
  loc_EmailID (pdraw messages) i = Some id
  <-> nth_error (map EntryID messages) i = Some (Returned id).
Proof.
  intros Hr. rewrite <- (emaillist_readable_ids Hr).
  unfold loc_EmailID, pdraw. rewrite nth_error_map.
  destruct (nth_error (emaillist messages) i); simpl;
    split; intros H; inversion H; reflexivity.
Qed.

(** The two tagging cells after a query.  When every property of every
    message can be read, no [Save()] raises and the indices are indices of
    the frame, the cells raise nothing, and a message ends with the query as
    its category exactly when its [EntryID] is the [EntryID] of a message at
    one of the indices; the other messages are as they were. *)
Theorem tagging_cells_tag_the_related (messages : list MailItem)
    (query : string) (related_email_indices : list nat) :
  Forall (fun m => Save_raises m = false
                   /\ exists email, read_email m = Ok email) messages ->
  Forall (fun i => i < List.length (pdraw messages)) related_email_indices ->
  exists d messages',
    emaildict (pdraw messages) query related_email_indices = Some d
    /\ tag_messages messages d = (messages', None)
    /\ Forall2
         (fun m m' =>
            forall id, EntryID m = Returned id ->
              ((exists i, In i related_email_indices
                          /\ nth_error (map EntryID messages) i
                             = Some (Returned id))
               -> m' = set_Categories m query)
              /\ (~ (exists i, In i related_email_indices
                               /\ nth_error (map EntryID messages) i
                                  = Some (Returned id))
                  -> m' = m))
         messages messages'.
Proof.
  intros Hall Hidx.
  assert (Hr : Forall (fun m => exists email, read_email m = Ok email)
                      messages)
    by (eapply Forall_impl; [|exact Hall]; intros m [_ H]; exact H).
  assert (Hs : Forall (fun m => Save_raises m = false
                                /\ exists id, EntryID m = Returned id)
                      messages).
  { eapply Forall_impl; [|exact Hall]. intros m [Hsave [email He]].
    split; [exact Hsave|]. exists (EmailID email).
    apply read_email_fields, He. }
  destruct (@emaildict_from_spec (pdraw messages) query
              related_email_indices [] Hidx) as (d & Hd & Hn & Hk & Hv).
  { constructor. }
  { intros k []. }
  exists d, (map (tagged d) messages).
  refine (conj Hd (conj (@tag_messages_ok messages d Hs Hn) _)).
  apply Forall2_map_r. intros m _ id Hid. unfold tagged. rewrite Hid.
  assert (Hkey : In id (keys d) <->
                 exists i, In i related_email_indices
                           /\ nth_error (map EntryID messages) i
                              = Some (Returned id)).
  { rewrite Hk. simpl. split.
    - intros [[]|(i & Hi & Hl)]. exists i. split; [exact Hi|].
      apply loc_EmailID_of_inbox; assumption.
    - intros (i & Hi & Hl). right. exists i. split; [exact Hi|].
      apply loc_EmailID_of_inbox; assumption. }
  destruct (dict_get d id) as [v|] eqn:Eg.
  - assert (Hin : In id (keys d)) by (apply dict_get_keys; eauto).
    rewrite (Hv id Hin) in Eg. injection Eg as <-.
    split; [reflexivity|]. intros Hno. exfalso. apply Hno, Hkey, Hin.
  - split; [|reflexivity]. intros Hyes. apply Hkey, dict_get_keys in Hyes.
    destruct Hyes as [v Hv']. congruence.
Qed.

(** Two messages, the query matched the second. *)
Lemma tagging_cells_tag_the_related_witness :
  exists d messages',
    emaildict (pdraw [mail_item "id1" "soil" false;
                      mail_item "id2" "budget" false]) "budget" [1]
    = Some d
    /\ tag_messages [mail_item "id1" "soil" false;
                     mail_item "id2" "budget" false] d
       = (messages', None).
Proof.
  assert (H1 : Forall (fun m => Save_raises m = false
                                /\ exists email, read_email m = Ok email)
                 [mail_item "id1" "soil" false; mail_item "id2" "budget" false])
    by (repeat constructor; eexists; reflexivity).
  assert (H2 : Forall (fun i => i < List.length
                                     (pdraw [mail_item "id1" "soil" false;
                                             mail_item "id2" "budget" false]))
                      [1])
    by (repeat constructor).
  destruct (@tagging_cells_tag_the_related _ "budget" _ H1 H2)
    as (d & messages' & Hd & Ht & _).
  exists d, messages'. split; assumption.
Defined.

(** Two rows, the second returned twice: one key for it. *)
Lemma emaildict_holds_the_matches_witness :
  exists d,
    emaildict (pdraw [mail_item "id1" "soil" false;
                      mail_item "id2" "budget" false]) "budget" [1; 0; 1]
    = Some d
    /\ NoDup (keys d).
Proof.
  assert (H : Forall (fun i => i < List.length
                                    (pdraw [mail_item "id1" "soil" false;
                                            mail_item "id2" "budget" false]))
                     [1; 0; 1])
    by (repeat constructor).
  destruct (@emaildict_holds_the_matches _ "budget" _ H)
    as (d & Hd & Hn & _).
  exists d. split; assumption.
Defined.

(** One row, an index 3. *)
Lemma emaildict_key_error_witness :
  emaildict (pdraw [mail_item "id1" "soil" false]) "budget" [0; 3] = None.
Proof.
  apply (@emaildict_key_error (pdraw [mail_item "id1" "soil" false])
           "budget" [0; 3]).
  apply Exists_cons_tl, Exists_cons_hd. simpl. lia.
Defined.

(** Two messages, the second is a key. *)
Lemma tag_messages_sets_categories_witness :
  exists messages',
    tag_messages [mail_item "id1" "soil" false; mail_item "id2" "budget" false]
                 [("id2", "budget")]
    = (messages', None).
Proof.
  assert (H1 : Forall (fun m => Save_raises m = false
                                /\ exists id, EntryID m = Returned id)
                 [mail_item "id1" "soil" false; mail_item "id2" "budget" false])
    by (repeat constructor; eexists; reflexivity).
  assert (H2 : NoDup (keys [("id2", "budget")]))
    by (repeat constructor; simpl; tauto).
  destruct (@tag_messages_sets_categories _ _ H1 H2)
    as (messages' & Ht & _).
  exists messages'. exact Ht.
Defined.

(** The second message matched by both queries, the first by the second. *)
Lemma tag_messages_last_query_wins_witness :
  exists messages'',
    tag_messages
      (fst (tag_messages [mail_item "id1" "soil" false;
                          mail_item "id2" "budget" false]
                         [("id2", "budget")]))
      [("id2", "soil"); ("id1", "soil")]
    = (messages'', None).
Proof.
  assert (H1 : Forall (fun m => Save_raises m = false
                                /\ exists id, EntryID m = Returned id)
                 [mail_item "id1" "soil" false; mail_item "id2" "budget" false])
    by (repeat constructor; eexists; reflexivity).
  assert (H2 : NoDup (keys [("id2", "budget")]))
    by (repeat constructor; simpl; tauto).
  assert (H3 : NoDup (keys [("id2", "soil"); ("id1", "soil")])).
  { repeat constructor; simpl; intuition discriminate. }
  destruct (@tag_messages_last_query_wins _ _ _ H1 H2 H3)
    as (messages'' & Ht & _).
  exists messages''. exact Ht.
Defined.

End TaggingCells.
